(** * i3bar: the status-bar protocol stream of go-i3bar

    A shallow embedding of [i3bar.go]: the two enumerations with their
    text codecs, the JSON shape of [Header] and [Block], and the [Stream]
    that frames a header, an opening bracket, status lines and a closing
    bracket on a byte sink.

    Go strings and byte slices are [string] (a list of bytes), Go's [int]
    is [Z] (the code never computes with these integers, it only compares
    and prints them), a pointer that may be nil is an [option], and an
    [error] result is an [option error] next to the value. *)

From Stdlib Require Import ZArith NArith List Bool Ascii String Lia.
From Stdlib Require Import DecimalString Permutation.
Import ListNotations.

Local Open Scope string_scope.
Local Open Scope Z_scope.

(** ** Bytes and strings *)

Module Bytes.

(** The double quote, which a string literal here cannot hold. *)
Definition dq : ascii := "034"%char.
Definition nl : ascii := "010"%char.

Definition code (c : ascii) : N := N_of_ascii c.

Definition quoted (s : string) : string :=
  String dq (s ++ String dq EmptyString).

Fixpoint map (f : ascii -> ascii) (s : string) : string :=
  match s with
  | EmptyString => EmptyString
  | String c r => String (f c) (map f r)
  end.

Fixpoint all (p : ascii -> bool) (s : string) : bool :=
  match s with
  | EmptyString => true
  | String c r => p c && all p r
  end.

(** [strings.Contains], as a proposition. *)
Definition contains (s sub : string) : Prop :=
  exists pre post, s = pre ++ sub ++ post.

(** [strconv.Itoa] / the verb [%d]. *)
Definition itoa (z : Z) : string := NilZero.string_of_int (Z.to_int z).

End Bytes.

(** ** Errors

    [github.com/pkg/errors] values as the code builds them, the error of
    [encoding/json] for a failing [MarshalText], and [Error()], the
    message each of them prints. *)

Inductive error : Type :=
| Errorf (msg : string)
| Wrap (cause : error) (msg : string)
| MarshalerError (type : string) (cause : error) (sourceFunc : string).

Fixpoint Error (e : error) : string :=
  match e with
  | Errorf msg => msg
  | Wrap cause msg => msg ++ ": " ++ Error cause
  | MarshalerError type cause sourceFunc =>
      "json: error calling " ++ sourceFunc ++ " for type " ++ type
        ++ ": " ++ Error cause
  end.

(** [errors.Cause]: the innermost error under the wrapping. *)
Fixpoint Cause (e : error) : error :=
  match e with
  | Wrap cause _ => Cause cause
  | _ => e
  end.

(** ** strings.ToLower *)

Module Strings.

Definition isUpper (c : ascii) : bool :=
  (Bytes.code "A" <=? Bytes.code c)%N && (Bytes.code c <=? Bytes.code "Z")%N.

Definition isLower (c : ascii) : bool :=
  (Bytes.code "a" <=? Bytes.code c)%N && (Bytes.code c <=? Bytes.code "z")%N.

(** [c += 'a' - 'A'] on an upper-case letter. *)
Definition lowerByte (c : ascii) : ascii :=
  if isUpper c then ascii_of_N (Bytes.code c + 32) else c.

Definition upperByte (c : ascii) : ascii :=
  if isLower c then ascii_of_N (Bytes.code c - 32) else c.

(** [c < utf8.RuneSelf] *)
Definition isASCIIByte (c : ascii) : bool := (Bytes.code c <? 128)%N.

Definition isASCII (s : string) : bool := Bytes.all isASCIIByte s.

Section ToLower.

(** [strings.Map(unicode.ToLower, s)], the path of [ToLower] for a
    string that holds a byte of 0x80 or more. It is driven by Go's
    Unicode case tables, which are no part of this repository, so
    the development is parametric in it. *)
Variable mapUnicodeToLower : string -> string.

Definition ToLower (s : string) : string :=
  if isASCII s then Bytes.map lowerByte s else mapUnicodeToLower s.

End ToLower.

(** A spelling of the lower-case word [w] in any mix of upper and lower
    case: letter by letter, the byte of [w] or its upper-case form. *)
Fixpoint mixedCaseOf (w s : string) : bool :=
  match w, s with
  | EmptyString, EmptyString => true
  | String a w', String b s' =>
      (Ascii.eqb b a || Ascii.eqb b (upperByte a)) && mixedCaseOf w' s'
  | _, _ => false
  end.

(** Lower-case ASCII letters only. *)
Definition isLowerWord (w : string) : bool := Bytes.all isLower w.

End Strings.

(** ** Alignment *)

Definition Alignment : Type := Z.

Definition Left : Alignment := 0.
Definition Center : Alignment := 1.
Definition Right : Alignment := 2.

Section Codecs.

Variable mapUnicodeToLower : string -> string.

(** [func (a *Alignment) UnmarshalText(b []byte) error]: the value of
    [*a] after the call, and the error. *)
Definition Alignment_UnmarshalText (a : Alignment) (b : string)
  : Alignment * option error :=
  let s := Strings.ToLower mapUnicodeToLower b in
  if String.eqb s "left" then (Left, None)
  else if String.eqb s "center" then (Center, None)
  else if String.eqb s "right" then (Right, None)
  else (a, Some (Errorf ("unknown alignment: " ++ b))).

End Codecs.

(** [func (a Alignment) MarshalText() ([]byte, error)]; [None] is the
    nil slice. *)
Definition Alignment_MarshalText (a : Alignment) : option string * option error :=
  if a =? Left then (Some "left", None)
  else if a =? Center then (Some "center", None)
  else if a =? Right then (Some "right", None)
  else (None, Some (Errorf ("unknown alignment: " ++ Bytes.itoa a))).

(** ** Markup *)

Definition Markup : Type := Z.

Definition NoMarkup : Markup := 0.
Definition Pango : Markup := 1.

Section MarkupCodec.

Variable mapUnicodeToLower : string -> string.

Definition Markup_UnmarshalText (m : Markup) (b : string)
  : Markup * option error :=
  let s := Strings.ToLower mapUnicodeToLower b in
  if String.eqb s "none" then (NoMarkup, None)
  else if String.eqb s "pango" then (Pango, None)
  else (m, Some (Errorf ("unknown markup: " ++ b))).

End MarkupCodec.

Definition Markup_MarshalText (m : Markup) : option string * option error :=
  if m =? NoMarkup then (Some "none", None)
  else if m =? Pango then (Some "pango", None)
  else (None, Some (Errorf ("unknown markup: " ++ Bytes.itoa m))).

(** ** encoding/json, as far as the stream uses it

    The encoder of the Go library writes bytes; here a value is first
    turned into its JSON tree and the tree is then rendered, compactly or
    indented, which gives the same bytes. *)

Module Json.

#[warnings="-register-all"]
Inductive json : Type :=
| JNull
| JBool (b : bool)
| JInt (n : Z)
| JString (s : string)
| JArray (items : list json)
| JObject (fields : list (string * json)).

(** *** Strings: [appendString] *)

Definition RuneError : Z := 0xFFFD.

Definition byteZ (c : ascii) : Z := Z.of_N (N_of_ascii c).

(** The table [first] of unicode/utf8 for a leading byte of 0x80 or
    more: the length of the sequence and the range its second byte
    must lie in; [None] for a byte that cannot lead. *)
Definition first (s0 : Z) : option (nat * Z * Z) :=
  if s0 <? 0xC2 then None
  else if s0 <=? 0xDF then Some (2%nat, 0x80, 0xBF)
  else if s0 =? 0xE0 then Some (3%nat, 0xA0, 0xBF)
  else if s0 <=? 0xEC then Some (3%nat, 0x80, 0xBF)
  else if s0 =? 0xED then Some (3%nat, 0x80, 0x9F)
  else if s0 <=? 0xEF then Some (3%nat, 0x80, 0xBF)
  else if s0 =? 0xF0 then Some (4%nat, 0x90, 0xBF)
  else if s0 <=? 0xF3 then Some (4%nat, 0x80, 0xBF)
  else if s0 =? 0xF4 then Some (4%nat, 0x80, 0x8F)
  else None.

Definition continuation (b : Z) : bool := (0x80 <=? b) && (b <=? 0xBF).

(** [utf8.DecodeRuneInString]: the rune and its width in bytes. *)
Definition DecodeRuneInString (s : string) : Z * nat :=
  match s with
  | EmptyString => (RuneError, 0%nat)
  | String c0 r0 =>
      let s0 := byteZ c0 in
      if s0 <? 0x80 then (s0, 1%nat)
      else
        match first s0, r0 with
        | Some (sz, lo, hi), String c1 r1 =>
            let s1 := byteZ c1 in
            if (s1 <? lo) || (hi <? s1) then (RuneError, 1%nat)
            else if (sz <=? 2)%nat then
              (Z.lor (Z.shiftl (Z.land s0 0x1F) 6) (Z.land s1 0x3F), 2%nat)
            else
              match r1 with
              | String c2 r2 =>
                  let s2 := byteZ c2 in
                  if negb (continuation s2) then (RuneError, 1%nat)
                  else if (sz <=? 3)%nat then
                    (Z.lor (Z.lor (Z.shiftl (Z.land s0 0x0F) 12)
                                  (Z.shiftl (Z.land s1 0x3F) 6))
                           (Z.land s2 0x3F), 3%nat)
                  else
                    match r2 with
                    | String c3 _ =>
                        let s3 := byteZ c3 in
                        if negb (continuation s3) then (RuneError, 1%nat)
                        else
                          (Z.lor (Z.lor (Z.lor (Z.shiftl (Z.land s0 0x07) 18)
                                               (Z.shiftl (Z.land s1 0x3F) 12))
                                        (Z.shiftl (Z.land s2 0x3F) 6))
                                 (Z.land s3 0x3F), 4%nat)
                    | EmptyString => (RuneError, 1%nat)
                    end
              | EmptyString => (RuneError, 1%nat)
              end
        | _, _ => (RuneError, 1%nat)
        end
  end.

(** [safeSet]: the ASCII bytes a JSON string holds unescaped. *)
Definition safeSet (b : Z) : bool :=
  (0x20 <=? b) && (b <? 0x80)
    && negb (b =? byteZ Bytes.dq) && negb (b =? byteZ "\").

(** [htmlSafeSet]: the same without the three HTML characters. *)
Definition htmlSafeSet (b : Z) : bool :=
  safeSet b && negb (b =? byteZ "<") && negb (b =? byteZ ">")
    && negb (b =? byteZ "&").

Definition hex (n : Z) : ascii :=
  match String.get (Z.to_nat n) "0123456789abcdef" with
  | Some c => c
  | None => "0"%char
  end.

Definition str1 (c : ascii) : string := String c EmptyString.

(** What [appendString] appends for one ASCII byte (backspace and form
    feed as Go 1.22 and later write them). *)
Definition escapeByte (escapeHTML : bool) (c : ascii) : string :=
  let b := byteZ c in
  if htmlSafeSet b || (negb escapeHTML && safeSet b) then str1 c
  else if (b =? byteZ "\") || (b =? byteZ Bytes.dq) then String "\" (str1 c)
  else if b =? 8 then "\b"
  else if b =? 12 then "\f"
  else if b =? 10 then "\n"
  else if b =? 13 then "\r"
  else if b =? 9 then "\t"
  else "\u00" ++ String (hex (Z.shiftr b 4)) (str1 (hex (Z.land b 0xF))).

(** The bytes [appendString] puts between the two quotes. *)
Fixpoint escapeString (escapeHTML : bool) (s : string) : string :=
  match s with
  | EmptyString => EmptyString
  | String c0 r0 =>
      if byteZ c0 <? 0x80 then escapeByte escapeHTML c0 ++ escapeString escapeHTML r0
      else
        let '(c, size) := DecodeRuneInString s in
        if (c =? RuneError) && (size =? 1)%nat then
          "\ufffd" ++ escapeString escapeHTML r0
        else
          match size, r0 with
          | 2%nat, String c1 r1 =>
              String c0 (str1 c1) ++ escapeString escapeHTML r1
          | 3%nat, String c1 (String c2 r2) =>
              (if (c =? 0x2028) || (c =? 0x2029)
               then "\u202" ++ str1 (hex (Z.land c 0xF))
               else String c0 (String c1 (str1 c2)))
                ++ escapeString escapeHTML r2
          | 4%nat, String c1 (String c2 (String c3 r3)) =>
              String c0 (String c1 (String c2 (str1 c3)))
                ++ escapeString escapeHTML r3
          | _, _ => "\ufffd" ++ escapeString escapeHTML r0
          end
  end.

Definition appendString (escapeHTML : bool) (s : string) : string :=
  Bytes.quoted (escapeString escapeHTML s).

(** *** Rendering a tree *)

Section Render.

Variable escapeHTML : bool.

(** The compact form, as [Marshal] writes it. *)
Fixpoint render (j : json) : string :=
  match j with
  | JNull => "null"
  | JBool b => if b then "true" else "false"
  | JInt n => Bytes.itoa n
  | JString s => appendString escapeHTML s
  | JArray items =>
      "[" ++ String.concat "," (List.map render items) ++ "]"
  | JObject fields =>
      "{" ++ String.concat ","
               (List.map (fun '(k, v) => appendString escapeHTML k ++ ":" ++ render v)
                         fields)
          ++ "}"
  end.

Variables prefix indent : string.

Fixpoint repeatString (s : string) (n : nat) : string :=
  match n with
  | O => EmptyString
  | S k => s ++ repeatString s k
  end.

(** [appendNewline] *)
Definition newline (depth : nat) : string :=
  String Bytes.nl (prefix ++ repeatString indent depth).

(** The indented form: what [appendIndent] makes of the compact form. An
    empty array or object stays [[]] or [{}]; otherwise every element
    starts on a line of its own, one level deeper, and a space follows
    the colon of a key. *)
Fixpoint renderIndent (depth : nat) (j : json) : string :=
  match j with
  | JArray [] => "[]"
  | JArray items =>
      "[" ++ newline (S depth)
          ++ String.concat ("," ++ newline (S depth))
               (List.map (renderIndent (S depth)) items)
          ++ newline depth ++ "]"
  | JObject [] => "{}"
  | JObject fields =>
      "{" ++ newline (S depth)
          ++ String.concat ("," ++ newline (S depth))
               (List.map (fun '(k, v) =>
                            appendString escapeHTML k ++ ": "
                              ++ renderIndent (S depth) v)
                         fields)
          ++ newline depth ++ "}"
  | _ => render j
  end.

End Render.

(** *** Struct fields and [omitempty] *)

(** One exported field as the struct encoder sees it: its key, whether
    its tag says [omitempty], whether [isEmptyValue] holds of its value,
    and what its own encoder gives. *)
Record field : Type := Field {
  name : string;
  omitEmpty : bool;
  isEmptyValue : bool;
  encoded : json + error
}.

(** The struct encoder: fields in declaration order, an empty
    [omitempty] field skipped, the first failing field failing the whole
    value. *)
Fixpoint structEncoder (fs : list field) : list (string * json) + error :=
  match fs with
  | [] => inl []
  | f :: rest =>
      if omitEmpty f && isEmptyValue f then structEncoder rest
      else
        match encoded f with
        | inr e => inr e
        | inl j =>
            match structEncoder rest with
            | inl l => inl ((name f, j) :: l)
            | inr e => inr e
            end
        end
  end.

Definition encodeStruct (fs : list field) : json + error :=
  match structEncoder fs with
  | inl l => inl (JObject l)
  | inr e => inr e
  end.

(** The encoder of a value whose type has a [MarshalText] method. *)
Definition textMarshalerEncoder (type : string)
           (r : option string * option error) : json + error :=
  match r with
  | (_, Some err) => inr (MarshalerError type err "MarshalText")
  | (Some b, None) => inl (JString b)
  | (None, None) => inl (JString EmptyString)
  end.

(** A slice: [null] when nil, else the elements in order, the first
    failing element failing the whole value. *)
Fixpoint arrayEncoder (items : list (json + error)) : list json + error :=
  match items with
  | [] => inl []
  | x :: rest =>
      match x with
      | inr e => inr e
      | inl j =>
          match arrayEncoder rest with
          | inl l => inl (j :: l)
          | inr e => inr e
          end
      end
  end.

Definition stringField (key : string) (omit : bool) (s : string) : field :=
  Field key omit (Nat.eqb (String.length s) 0) (inl (JString s)).

Definition intField (key : string) (omit : bool) (n : Z) : field :=
  Field key omit (n =? 0) (inl (JInt n)).

Definition boolField (key : string) (omit : bool) (b : bool) : field :=
  Field key omit (negb b) (inl (JBool b)).

End Json.

Import Json.

(** ** Header *)

Record Header : Type := mkHeader {
  Version : Z;
  StopSignal : Z;
  ContSignal : Z;
  ClickEvents : bool
}.

Definition Header_fields (h : Header) : list field :=
  [ intField "version" false (Version h);
    intField "stop_signal" true (StopSignal h);
    intField "cont_signal" true (ContSignal h);
    boolField "click_events" true (ClickEvents h) ].

Definition marshal_Header (h : Header) : json + error :=
  encodeStruct (Header_fields h).

(** ** Block *)

Module Block.

Record t : Type := mk {
  Name : string;
  Instance : string;
  FullText : string;
  ShortText : string;
  Color : string;
  Background : string;
  Border : string;
  MinWidth : string;
  Align : Alignment;
  Urgent : bool;
  Separator : bool;
  SeparatorBlockWidth : Z;
  Markup : Markup
}.

(** The zero value of the struct. *)
Definition zero : t :=
  mk EmptyString EmptyString EmptyString EmptyString EmptyString EmptyString
     EmptyString EmptyString 0 false false 0 0.

End Block.

Definition Block : Type := Block.t.

Definition alignField (a : Alignment) : field :=
  Field "align" true (a =? 0)
        (textMarshalerEncoder "i3bar.Alignment" (Alignment_MarshalText a)).

Definition markupField (m : Markup) : field :=
  Field "markup" true (m =? 0)
        (textMarshalerEncoder "i3bar.Markup" (Markup_MarshalText m)).

Definition Block_fields (b : Block) : list field :=
  [ stringField "name" true (Block.Name b);
    stringField "instance" true (Block.Instance b);
    stringField "full_text" false (Block.FullText b);
    stringField "short_text" true (Block.ShortText b);
    stringField "color" true (Block.Color b);
    stringField "background" true (Block.Background b);
    stringField "border" true (Block.Border b);
    stringField "min_width" true (Block.MinWidth b);
    alignField (Block.Align b);
    boolField "urgent" true (Block.Urgent b);
    boolField "separator" true (Block.Separator b);
    intField "separator_block_width" true (Block.SeparatorBlockWidth b);
    markupField (Block.Markup b) ].

Definition marshal_Block (b : Block) : json + error :=
  encodeStruct (Block_fields b).

(** A [*Block]: [null] for the nil pointer. *)
Definition marshal_BlockPtr (p : option Block) : json + error :=
  match p with
  | None => inl JNull
  | Some b => marshal_Block b
  end.

(** ** StatusLine

    [type StatusLine []*Block]: [None] is the nil slice, [Some l] a slice
    of pointers, each of which may be nil. *)
Definition StatusLine : Type := option (list (option Block)).

Definition marshal_StatusLine (b : StatusLine) : json + error :=
  match b with
  | None => inl JNull
  | Some l =>
      match arrayEncoder (List.map marshal_BlockPtr l) with
      | inl items => inl (JArray items)
      | inr e => inr e
      end
  end.

(** ** io.Writer and io.Reader

    A writer is a state with its [Write]: the state after the call, the
    count of bytes taken and the error. The stream never reads, so a
    reader is any type. *)

Class Writer (W : Type) : Type :=
  Write : W -> string -> W * (Z * option error).

Definition lenZ (p : string) : Z := Z.of_nat (String.length p).

(** A sink that takes every write, as [bytes.Buffer] does. *)
Definition Buffer : Type := string.

#[export] Instance Buffer_Writer : Writer Buffer :=
  fun b p => (b ++ p, (lenZ p, None)).

(** A sink with a script: the head of [script] decides the next write,
    [Some err] making it fail with nothing taken; once the script is
    used up every write is taken. *)
Record Scripted : Type := mkScripted {
  taken : string;
  script : list (option error)
}.

#[export] Instance Scripted_Writer : Writer Scripted :=
  fun k p =>
    match script k with
    | Some err :: rest => (mkScripted (taken k) rest, (0, Some err))
    | None :: rest => (mkScripted (taken k ++ p) rest, (lenZ p, None))
    | [] => (mkScripted (taken k ++ p) [], (lenZ p, None))
    end.

(** Any writer with a log of the calls made on it. *)
Record Recorder (W : Type) : Type := mkRecorder {
  inner : W;
  calls : list string
}.

Arguments mkRecorder {W} _ _.
Arguments inner {W} _.
Arguments calls {W} _.

#[export] Instance Recorder_Writer (W : Type) `{Writer W} : Writer (Recorder W) :=
  fun k p =>
    let '(w', res) := Write (inner k) p in
    (mkRecorder w' (calls k ++ [p]), res).

(** ** json.Encoder

    The encoder holds the writer it was made for; that writer is the
    very object the stream holds as [w], so its state is kept once, in
    the stream, and handed to [Encode]. *)

Module Encoder.

Record t : Type := mk {
  err : option error;
  indentPrefix : string;
  indentValue : string;
  escapeHTML : bool
}.

Definition NewEncoder : t := mk None EmptyString EmptyString true.

Definition SetIndent (enc : t) (prefix indent : string) : t :=
  mk (err enc) prefix indent (escapeHTML enc).

Definition indented (enc : t) : bool :=
  negb (String.eqb (indentPrefix enc) EmptyString)
  || negb (String.eqb (indentValue enc) EmptyString).

(** The bytes of one value: its rendering and the newline that ends
    every value. *)
Definition bytesOf (enc : t) (j : json) : string :=
  (if indented enc
   then renderIndent (escapeHTML enc) (indentPrefix enc) (indentValue enc) 0 j
   else render (escapeHTML enc) j)
    ++ String Bytes.nl EmptyString.

(** [Encode]: a write error of an earlier call is returned again with
    nothing written; a value that fails to marshal is an error with
    nothing written; else the bytes go out in one [Write], whose error
    the encoder keeps. *)
Definition Encode {W : Type} `{Writer W} (enc : t) (w : W) (v : json + error)
  : t * W * option error :=
  match err enc with
  | Some e => (enc, w, Some e)
  | None =>
      match v with
      | inr e => (enc, w, Some e)
      | inl j =>
          let '(w', (_, werr)) := Write w (bytesOf enc j) in
          match werr with
          | Some e =>
              (mk (Some e) (indentPrefix enc) (indentValue enc) (escapeHTML enc),
               w', Some e)
          | None => (enc, w', None)
          end
      end
  end.

End Encoder.

(** ** json.Decoder: made, never driven *)

Module Decoder.

Record t (R : Type) : Type := mk { r : R }.

Arguments mk {R} _.
Arguments r {R} _.

Definition NewDecoder {R : Type} (rd : R) : t R := mk rd.

End Decoder.

(** ** sync.Mutex *)

Module Mutex.

Record t : Type := mk { locked : bool }.

Definition unlocked : t := mk false.

(** [Lock]: [None] while another call holds the mutex. *)
Definition Lock (m : t) : option t :=
  if locked m then None else Some (mk true).

Definition Unlock (m : t) : t := mk false.

End Mutex.

(** ** Stream *)

Module Stream.

Record t (W R : Type) : Type := mk {
  w : W;
  e : Encoder.t;
  wMux : Mutex.t;
  r : R;
  d : Decoder.t R
}.

Arguments mk {W R} _ _ _ _ _.
Arguments w {W R} _.
Arguments e {W R} _.
Arguments wMux {W R} _.
Arguments r {W R} _.
Arguments d {W R} _.

End Stream.

Definition Stream : Type -> Type -> Type := Stream.t.

Section Methods.

Context {W R : Type} `{Writer W}.

(** [NewStream]: the sink after the call, the stream or nil, and the
    error. *)
Definition NewStream (w : W) (r : R) (pretty : bool) (h : Header)
  : W * (option (Stream W R) * option error) :=
  let e0 := Encoder.NewEncoder in
  let e1 := if pretty then Encoder.SetIndent e0 EmptyString "    " else e0 in
  let '(e2, w1, err) := Encoder.Encode e1 w (marshal_Header h) in
  match err with
  | Some err => (w1, (None, Some (Wrap err "Failed to send header")))
  | None =>
      let '(w2, (_, err)) := Write w1 "[" in
      match err with
      | Some err =>
          (w2, (None, Some (Wrap err "Failed to start infinite json array")))
      | None =>
          (w2, (Some (Stream.mk w2 e2 Mutex.unlocked r (Decoder.NewDecoder r)),
                None))
      end
  end.

(** [SendLine]: [None] while the call waits for the lock, else the
    stream after the call and the error. *)
Definition SendLine (s : Stream W R) (b : StatusLine)
  : option (Stream W R * option error) :=
  match Mutex.Lock (Stream.wMux s) with
  | None => None
  | Some m =>
      let '(e', w', err) :=
        Encoder.Encode (Stream.e s) (Stream.w s) (marshal_StatusLine b) in
      let s' := Stream.mk w' e' (Mutex.Unlock m) (Stream.r s) (Stream.d s) in
      match err with
      | Some err =>
          Some (s', Some (Wrap err "Failed to encode status line into json stream"))
      | None => Some (s', None)
      end
  end.

(** [Close] *)
Definition Close (s : Stream W R) : option (Stream W R * option error) :=
  match Mutex.Lock (Stream.wMux s) with
  | None => None
  | Some m =>
      let '(w', (_, err)) := Write (Stream.w s) "]" in
      let s' := Stream.mk w' (Stream.e s) (Mutex.Unlock m) (Stream.r s) (Stream.d s) in
      match err with
      | Some err => Some (s', Some (Wrap err "Failed to close infinite json array"))
      | None => Some (s', None)
      end
  end.

(** A caller that sends the lines one after the other, whatever each
    call returns, and collects the errors. *)
Fixpoint SendLines (s : Stream W R) (lines : list StatusLine)
  : option (Stream W R * list (option error)) :=
  match lines with
  | [] => Some (s, [])
  | b :: rest =>
      match SendLine s b with
      | None => None
      | Some (s', err) =>
          match SendLines s' rest with
          | None => None
          | Some (s'', errs) => Some (s'', err :: errs)
          end
      end
  end.

End Methods.

(** ** Concurrent callers

    Goroutines calling [SendLine] and [Close] on one stream whose sink is
    an in-memory byte buffer. A scheduler picks, step after step, a
    goroutine that can move. The sink takes the bytes of a [Write] one
    at a time, so two writes that overlap in time do mix their bytes;
    what keeps them apart is the mutex alone. *)

Module Concurrent.

Inductive call : Type :=
| CallSendLine (b : StatusLine)
| CallClose.

(** Where a goroutine stands in its call. *)
Inductive pc : Type :=
| AtLock (c : call)
| Locked (c : call)
| Writing (rest : string) (ret : option error)
| AtUnlock (ret : option error)
| Returned (ret : option error).

Record state : Type := mkState {
  sink : string;
  mux : Mutex.t;
  threads : list pc
}.

Section Steps.

(** The encoder of the stream. No write on this sink fails, so no call
    changes it. *)
Variable enc : Encoder.t.

(** The bytes a call hands to [Write] under the lock and the error it
    will return: for [SendLine], [Encode] run on a buffer of its own. *)
Definition payload (c : call) : string * option error :=
  match c with
  | CallSendLine b =>
      let '(_, out, err) :=
        Encoder.Encode enc (EmptyString : Buffer) (marshal_StatusLine b) in
      (out,
       match err with
       | Some err => Some (Wrap err "Failed to encode status line into json stream")
       | None => None
       end)
  | CallClose => ("]", None)
  end.

(** One move of one goroutine; [None] when it cannot move: it waits for
    the lock, or it has returned. *)
Definition tstep (snk : string) (m : Mutex.t) (p : pc)
  : option (string * Mutex.t * pc) :=
  match p with
  | AtLock c =>
      match Mutex.Lock m with
      | Some m' => Some (snk, m', Locked c)
      | None => None
      end
  | Locked c => let '(out, ret) := payload c in Some (snk, m, Writing out ret)
  | Writing (String b rest) ret =>
      Some (snk ++ String b EmptyString, m, Writing rest ret)
  | Writing EmptyString ret => Some (snk, m, AtUnlock ret)
  | AtUnlock ret => Some (snk, Mutex.Unlock m, Returned ret)
  | Returned _ => None
  end.

(** The move of goroutine number [i]. *)
Fixpoint stepThread (i : nat) (snk : string) (m : Mutex.t) (ts : list pc)
  : option (string * Mutex.t * list pc) :=
  match ts, i with
  | [], _ => None
  | p :: rest, O =>
      match tstep snk m p with
      | Some (snk', m', p') => Some (snk', m', p' :: rest)
      | None => None
      end
  | p :: rest, S k =>
      match stepThread k snk m rest with
      | Some (snk', m', rest') => Some (snk', m', p :: rest')
      | None => None
      end
  end.

Definition stepAt (i : nat) (st : state) : option state :=
  match stepThread i (sink st) (mux st) (threads st) with
  | Some (snk', m', ts') => Some (mkState snk' m' ts')
  | None => None
  end.

(** A schedule names the goroutine to move at each step. *)
Fixpoint run (schedule : list nat) (st : state) : option state :=
  match schedule with
  | [] => Some st
  | i :: rest =>
      match stepAt i st with
      | Some st' => run rest st'
      | None => None
      end
  end.

Definition step (st st' : state) : Prop := exists i, stepAt i st = Some st'.

Inductive exec : state -> state -> Prop :=
| exec_refl st : exec st st
| exec_step st st' st'' : step st st' -> exec st' st'' -> exec st st''.

Definition returned (p : pc) : bool :=
  match p with Returned _ => true | _ => false end.

(** Every call has returned. *)
Definition finished (st : state) : bool := forallb returned (threads st).

(** The calls start together on an unlocked stream. *)
Definition start (snk : string) (calls : list call) : state :=
  mkState snk Mutex.unlocked (List.map AtLock calls).

(** The bytes of the calls [l], one whole call after the other. *)
Definition outputs (l : list call) : string :=
  String.concat EmptyString (List.map (fun c => fst (payload c)) l).

(** Bookkeeping of the proof: who is between [Lock] and [Unlock], which
    calls have not begun to write, and the bytes still to come of a
    write under way. *)
Definition critical (p : pc) : bool :=
  match p with
  | Locked _ | Writing _ _ | AtUnlock _ => true
  | _ => false
  end.

Fixpoint pending (ts : list pc) : list call :=
  match ts with
  | [] => []
  | AtLock c :: rest | Locked c :: rest => c :: pending rest
  | _ :: rest => pending rest
  end.

Fixpoint inflight (ts : list pc) : string :=
  match ts with
  | [] => EmptyString
  | Writing out _ :: rest => out ++ inflight rest
  | _ :: rest => inflight rest
  end.

(** The moves a goroutine still has to make before it has returned. *)
Definition work (p : pc) : nat :=
  match p with
  | AtLock c => 4 + String.length (fst (payload c))
  | Locked c => 3 + String.length (fst (payload c))
  | Writing rest _ => 2 + String.length rest
  | AtUnlock _ => 1
  | Returned _ => 0
  end.

Definition workload (ts : list pc) : nat := List.list_sum (List.map work ts).

(** The goroutine [p] is somewhere in the call [c]: it still holds the
    call, or it carries the error the call is going to return. *)
Definition follows (c : call) (p : pc) : Prop :=
  match p with
  | AtLock c' | Locked c' => c' = c
  | Writing _ ret | AtUnlock ret | Returned ret => ret = snd (payload c)
  end.

(** How many goroutines are between [Lock] and [Unlock]. *)
Definition holders (ts : list pc) : nat := List.length (List.filter critical ts).

(** What every reachable state satisfies, for calls [calls] started on
    the sink [snk0]: the mutex is held exactly when one goroutine is
    between [Lock] and [Unlock], and the sink, completed by the bytes
    still to come of the write under way, is [snk0] followed by the
    whole outputs of the calls that have begun to write, in the order
    [started] in which they took the lock. *)
Definition invariant (snk0 : string) (calls : list call) (st : state) : Prop :=
  holders (threads st) = (if Mutex.locked (mux st) then 1%nat else 0%nat) /\
  exists started,
    Permutation calls (started ++ pending (threads st)) /\
    sink st ++ inflight (threads st) = snk0 ++ outputs started.

End Steps.

End Concurrent.

(** ** The optional fields of a Block

    Every field of [Block] but [FullText] carries [omitempty]. *)

Inductive optional : Type :=
| OName | OInstance | OShortText | OColor | OBackground | OBorder
| OMinWidth | OAlign | OUrgent | OSeparator | OSeparatorBlockWidth | OMarkup.

(** The key of the field in its struct tag. *)
Definition key (o : optional) : string :=
  match o with
  | OName => "name"
  | OInstance => "instance"
  | OShortText => "short_text"
  | OColor => "color"
  | OBackground => "background"
  | OBorder => "border"
  | OMinWidth => "min_width"
  | OAlign => "align"
  | OUrgent => "urgent"
  | OSeparator => "separator"
  | OSeparatorBlockWidth => "separator_block_width"
  | OMarkup => "markup"
  end.

(** The field holds the zero value of its type. *)
Definition isZero (o : optional) (b : Block) : bool :=
  match o with
  | OName => String.eqb (Block.Name b) EmptyString
  | OInstance => String.eqb (Block.Instance b) EmptyString
  | OShortText => String.eqb (Block.ShortText b) EmptyString
  | OColor => String.eqb (Block.Color b) EmptyString
  | OBackground => String.eqb (Block.Background b) EmptyString
  | OBorder => String.eqb (Block.Border b) EmptyString
  | OMinWidth => String.eqb (Block.MinWidth b) EmptyString
  | OAlign => Block.Align b =? 0
  | OUrgent => negb (Block.Urgent b)
  | OSeparator => negb (Block.Separator b)
  | OSeparatorBlockWidth => Block.SeparatorBlockWidth b =? 0
  | OMarkup => Block.Markup b =? 0
  end.

(** Exactly the field [o] of [b] is set. *)
Definition onlySet (o : optional) (b : Block) : Prop :=
  isZero o b = false /\ forall o', o' <> o -> isZero o' b = true.

(** The encoding is an object with the two keys "full_text" and that of
    [o], and no other. *)
Definition showsOnly (o : optional) (r : json + error) : Prop :=
  exists fields,
    r = inl (JObject fields) /\
    Permutation (List.map fst fields) ["full_text"; key o].

Definition isAlignment (a : Alignment) : bool :=
  (a =? Left) || (a =? Center) || (a =? Right).

Definition isMarkup (m : Markup) : bool := (m =? NoMarkup) || (m =? Pango).

(** A block with nothing set but its full text, and one with a fourth,
    undefined alignment. *)
Definition textBlock (text : string) : Block :=
  Block.mk EmptyString EmptyString text EmptyString EmptyString EmptyString
           EmptyString EmptyString Left false false 0 NoMarkup.

Definition oddBlock : Block :=
  Block.mk EmptyString EmptyString "x" EmptyString EmptyString EmptyString
           EmptyString EmptyString 3 false false 0 NoMarkup.

Definition urgentBlock : Block :=
  Block.mk EmptyString EmptyString "MEM 2G" EmptyString EmptyString EmptyString
           EmptyString EmptyString Left true false 0 NoMarkup.

(** The sentence of the specification on a single set field, read on
    every value the field's type has. *)
Definition omission_as_specified : Prop :=
  forall (b : Block) (o : optional), onlySet o b -> showsOnly o (marshal_Block b).

(** A stream between two calls: nobody holds its mutex. *)
Definition idle {W R : Type} (s : Stream W R) : Prop :=
  Mutex.locked (Stream.wMux s) = false.

(** ** Bytes on the wire *)

(** [strings.HasPrefix] and [strings.Contains], computed. *)
Fixpoint hasPrefix (s pre : string) {struct pre} : bool :=
  match pre, s with
  | EmptyString, _ => true
  | String a pre', String b s' => Ascii.eqb a b && hasPrefix s' pre'
  | String _ _, EmptyString => false
  end.

Fixpoint containsb (s sub : string) : bool :=
  hasPrefix s sub
  || match s with
     | EmptyString => false
     | String _ s' => containsb s' sub
     end.

(** The encoder [NewStream] sets up. *)
Definition encoderOf (pretty : bool) : Encoder.t :=
  if pretty
  then Encoder.SetIndent Encoder.NewEncoder EmptyString "    "
  else Encoder.NewEncoder.

(** The rendering that encoder gives a tree. *)
Definition rendering (pretty : bool) (j : json) : string :=
  if pretty then renderIndent true EmptyString "    " 0 j else render true j.

Definition newlineByte : string := String Bytes.nl EmptyString.

(** The bytes of the header as handed to the first [Write]. *)
Definition headerBytes (pretty : bool) (h : Header) : string :=
  match marshal_Header h with
  | inl j => Encoder.bytesOf (encoderOf pretty) j
  | inr _ => EmptyString
  end.

(** ** The scenario of the specification *)

Definition header1 : Header := mkHeader 1 0 0 false.

Definition cpuLine : StatusLine := Some [Some (textBlock "CPU 10%")].

Definition memLine : StatusLine := Some [Some urgentBlock].

(** The bytes the specification expects after construction and as the
    first element. *)
Definition specHeader : string := "{" ++ Bytes.quoted "version" ++ ":1}".

Definition specHeaderAndOpen : string := specHeader ++ "[".

Definition specCpuElement : string :=
  "[{" ++ Bytes.quoted "full_text" ++ ":" ++ Bytes.quoted "CPU 10%" ++ "}]".

(** The scenario as specified: after construction over an empty sink
    the sink holds [specHeaderAndOpen], and sending the line appends
    [specCpuElement] and nothing else. *)
Definition scenario_as_specified (pretty : bool) : Prop :=
  exists s : Stream Buffer unit,
    NewStream (EmptyString : Buffer) tt pretty header1
    = (specHeaderAndOpen, (Some s, None)) /\
    exists s', SendLine s cpuLine = Some (s', None) /\
               Stream.w s' = Stream.w s ++ specCpuElement.

(** The messages of section 7 of the specification. *)
Definition specMessages : list string :=
  [ "failed to send header"; "failed to start infinite array";
    "failed to encode status line"; "failed to close infinite array" ].

(** A recording sink that takes [n] writes and fails the next one. *)
Definition brokenPipe : error := Errorf "write |1: broken pipe".

Definition failsAt (n : nat) : Recorder Scripted :=
  mkRecorder (mkScripted EmptyString (List.repeat None n ++ [Some brokenPipe])) [].

(** The error of each phase on a sink that fails in that phase. *)
Definition headerFailure : option error :=
  snd (snd (NewStream (R := unit) (failsAt 0) tt false header1)).

Definition openFailure : option error :=
  snd (snd (NewStream (R := unit) (failsAt 1) tt false header1)).

Definition lineFailure : option error :=
  match NewStream (R := unit) (failsAt 2) tt false header1 with
  | (_, (Some s, _)) =>
      match SendLine s cpuLine with
      | Some (_, err) => err
      | None => None
      end
  | _ => None
  end.

Definition closeFailure : option error :=
  match NewStream (R := unit) (failsAt 2) tt false header1 with
  | (_, (Some s, _)) =>
      match Close s with
      | Some (_, err) => err
      | None => None
      end
  | _ => None
  end.

Definition message (e : option error) : string :=
  match e with
  | Some e => Error e
  | None => EmptyString
  end.

(** The messages as specified: each phase's error holds its message of
    the specification. *)
Definition messages_as_specified : Prop :=
  List.Forall2 (fun e m => Bytes.contains (message e) m)
    [headerFailure; openFailure; lineFailure; closeFailure] specMessages.

(** Three goroutines on one stream: two send a line, one closes. The
    schedule lets the second run first, then the first, then the third. *)
Definition demoCalls : list Concurrent.call :=
  [ Concurrent.CallSendLine cpuLine; Concurrent.CallSendLine memLine;
    Concurrent.CallClose ].

Definition demoSchedule : list nat :=
  (List.repeat 1%nat 43 ++ List.repeat 0%nat 30 ++ List.repeat 2%nat 5)%list.

(** ** The keys of an encoded Block

    The fields of [Block] in the order of their declaration, [None]
    standing for [FullText], the one field without [omitempty]. *)
Definition declared : list (option optional) :=
  [ Some OName; Some OInstance; None; Some OShortText; Some OColor;
    Some OBackground; Some OBorder; Some OMinWidth; Some OAlign; Some OUrgent;
    Some OSeparator; Some OSeparatorBlockWidth; Some OMarkup ].

Definition keyOf (d : option optional) : string :=
  match d with
  | None => "full_text"
  | Some o => key o
  end.

(** The field is written: it is the full text, or it is not zero. *)
Definition present (b : Block) (d : option optional) : bool :=
  match d with
  | None => true
  | Some o => negb (isZero o b)
  end.

Definition keysOf (b : Block) : list string :=
  List.map keyOf (List.filter (present b) declared).

(** A block with several fields set. *)
Definition richBlock : Block :=
  Block.mk "cpu" EmptyString "CPU 10%" "10%" "#00ff00" EmptyString EmptyString
           EmptyString Right false true 9 Pango.

(** ** What a line leaves on the sink and gives back

    On a sink that takes every write, through an encoder that has met no
    write error: the bytes [SendLine] writes for a line, none when the
    line does not encode, and the error it returns. *)
Definition lineBytes (enc : Encoder.t) (b : StatusLine) : string :=
  match marshal_StatusLine b with
  | inl j => Encoder.bytesOf enc j
  | inr _ => EmptyString
  end.

Definition lineError (b : StatusLine) : option error :=
  match marshal_StatusLine b with
  | inl _ => None
  | inr e => Some (Wrap e "Failed to encode status line into json stream")
  end.

(** A line whose second block has an undefined alignment. *)
Definition badLine : StatusLine :=
  Some [Some (textBlock "ok"); Some oddBlock; Some urgentBlock].

(** ** Plain bytes

    A byte other than the newline and the three characters HTML gives a
    meaning to, and a string of such bytes. *)
Definition plainByte (c : ascii) : bool :=
  negb (Ascii.eqb c Bytes.nl) && negb (Ascii.eqb c "<") && negb (Ascii.eqb c ">")
  && negb (Ascii.eqb c "&").

Definition plain (s : string) : bool := Bytes.all plainByte s.

(** * Properties *)

(** ** Bytes *)

Module BytesFacts.

Lemma app_nil_r (s : string) : s ++ EmptyString = s.
Proof. induction s; simpl; congruence. Qed.

Lemma app_assoc (a b c : string) : (a ++ b) ++ c = a ++ b ++ c.
Proof. induction a; simpl; congruence. Qed.

Lemma app_length (a b : string) :
  String.length (a ++ b) = (String.length a + String.length b)%nat.
Proof. induction a; simpl; congruence. Qed.

Lemma contains_refl (s : string) : Bytes.contains s s.
Proof. exists EmptyString, EmptyString. simpl. now rewrite app_nil_r. Qed.

Lemma contains_app_l (p s sub : string) :
  Bytes.contains s sub -> Bytes.contains (p ++ s) sub.
Proof. intros (a & b & ->). exists (p ++ a), b. now rewrite app_assoc. Qed.

End BytesFacts.

(** ** Case folding *)

Module StringsFacts.

Import Strings.

(** A lower-case letter and its upper-case form are both ASCII and both
    fold to the letter. *)
Lemma lower_letter (a : ascii) :
  isLower a = true ->
  isASCIIByte a = true /\ lowerByte a = a /\
  isASCIIByte (upperByte a) = true /\ lowerByte (upperByte a) = a.
Proof.
  destruct a as [[] [] [] [] [] [] [] []]; vm_compute; intros E;
    first [discriminate E | repeat split].
Qed.

Lemma mixedCaseOf_fold (w s : string) :
  isLowerWord w = true -> mixedCaseOf w s = true ->
  isASCII s = true /\ Bytes.map lowerByte s = w.
Proof.
  unfold isLowerWord, isASCII. revert s.
  induction w as [|a w IH]; intros [|b s];
    cbn [mixedCaseOf Bytes.all Bytes.map]; try discriminate.
  - now split.
  - intros Hw Hm.
    apply andb_true_iff in Hw as [Ha Hw].
    apply andb_true_iff in Hm as [Hb Hm].
    destruct (IH s Hw Hm) as [Hs1 Hs2].
    destruct (lower_letter a Ha) as (A1 & A2 & A3 & A4).
    apply orb_true_iff in Hb as [Hb | Hb]; apply Ascii.eqb_eq in Hb; subst b.
    + rewrite A1, A2, Hs1, Hs2. now split.
    + rewrite A3, A4, Hs1, Hs2. now split.
Qed.

(** Whatever the Unicode path does, a mixed-case spelling of a
    lower-case word folds to the word. *)
Lemma ToLower_mixedCase (u : string -> string) (w s : string) :
  isLowerWord w = true -> mixedCaseOf w s = true -> ToLower u s = w.
Proof.
  intros Hw Hm. destruct (mixedCaseOf_fold w s Hw Hm) as [E1 E2].
  unfold ToLower. now rewrite E1.
Qed.

(** An ASCII byte that folds to a lower-case letter is the letter or its
    upper-case form. *)
Lemma fold_letter (a b : ascii) :
  isLower a = true -> lowerByte b = a ->
  (Ascii.eqb b a || Ascii.eqb b (upperByte a)) = true.
Proof.
  intros Ha E. subst a. revert Ha.
  destruct b as [[] [] [] [] [] [] [] []]; vm_compute; intros E;
    first [discriminate E | reflexivity].
Qed.

(** On an ASCII string the fold of the code and the spelling in mixed
    case say the same. *)
Lemma ToLower_ascii_iff (u : string -> string) (w s : string) :
  isLowerWord w = true -> isASCII s = true ->
  (ToLower u s = w <-> mixedCaseOf w s = true).
Proof.
  intros Hw Hs. split; [| now apply ToLower_mixedCase].
  unfold ToLower. rewrite Hs. clear Hs. revert s Hw. unfold isLowerWord.
  induction w as [|a w IH]; intros [|b s];
    cbn [mixedCaseOf Bytes.all Bytes.map]; try discriminate; auto.
  intros Hw E.
  apply andb_true_iff in Hw as [Ha Hw]. injection E as E1 E2.
  rewrite (fold_letter a b Ha E1). simpl. now apply IH.
Qed.

End StringsFacts.

(** ** The text codecs of Alignment and Markup *)

Section CodecFacts.

Import Strings.

Variable u : string -> string.

Lemma Alignment_UnmarshalText_unknown (a : Alignment) (s : string) :
  ToLower u s <> "left" -> ToLower u s <> "center" -> ToLower u s <> "right" ->
  Alignment_UnmarshalText u a s = (a, Some (Errorf ("unknown alignment: " ++ s))).
Proof.
  intros H1 H2 H3. unfold Alignment_UnmarshalText. cbv zeta.
  apply String.eqb_neq in H1, H2, H3. now rewrite H1, H2, H3.
Qed.

Lemma Markup_UnmarshalText_unknown (m : Markup) (s : string) :
  ToLower u s <> "none" -> ToLower u s <> "pango" ->
  Markup_UnmarshalText u m s = (m, Some (Errorf ("unknown markup: " ++ s))).
Proof.
  intros H1 H2. unfold Markup_UnmarshalText. cbv zeta.
  apply String.eqb_neq in H1, H2. now rewrite H1, H2.
Qed.

Lemma not_mixedCase_fold (w s : string) :
  isLowerWord w = true -> isASCII s = true ->
  mixedCaseOf w s = false -> ToLower u s <> w.
Proof.
  intros Hw Hs Hm E. apply (StringsFacts.ToLower_ascii_iff u w s Hw Hs) in E. congruence.
Qed.

End CodecFacts.

(** C2. Decoding the encoding of each Alignment variant gives the variant
    back, and every spelling of "left", "center", "right" in any mix of
    upper and lower case decodes to its variant; the same holds of Markup
    with "none" and "pango". *)
Theorem text_codec_roundtrip (u : string -> string) :
  (forall (v a0 : Alignment), v = Left \/ v = Center \/ v = Right ->
     exists b, Alignment_MarshalText v = (Some b, None) /\
               Alignment_UnmarshalText u a0 b = (v, None)) /\
  (forall (s : string) (a0 : Alignment),
     (Strings.mixedCaseOf "left" s = true ->
        Alignment_UnmarshalText u a0 s = (Left, None)) /\
     (Strings.mixedCaseOf "center" s = true ->
        Alignment_UnmarshalText u a0 s = (Center, None)) /\
     (Strings.mixedCaseOf "right" s = true ->
        Alignment_UnmarshalText u a0 s = (Right, None))) /\
  (forall (v m0 : Markup), v = NoMarkup \/ v = Pango ->
     exists b, Markup_MarshalText v = (Some b, None) /\
               Markup_UnmarshalText u m0 b = (v, None)) /\
  (forall (s : string) (m0 : Markup),
     (Strings.mixedCaseOf "none" s = true ->
        Markup_UnmarshalText u m0 s = (NoMarkup, None)) /\
     (Strings.mixedCaseOf "pango" s = true ->
        Markup_UnmarshalText u m0 s = (Pango, None))).
Proof.
  assert (fold : forall w s, Strings.isLowerWord w = true ->
            Strings.mixedCaseOf w s = true -> Strings.ToLower u s = w)
    by apply StringsFacts.ToLower_mixedCase.
  repeat split.
  - intros v a0 [-> | [-> | ->]].
    + exists "left". split; reflexivity.
    + exists "center". split; reflexivity.
    + exists "right". split; reflexivity.
  - intros E. unfold Alignment_UnmarshalText.
    now rewrite (fold "left" s eq_refl E).
  - intros E. unfold Alignment_UnmarshalText.
    now rewrite (fold "center" s eq_refl E).
  - intros E. unfold Alignment_UnmarshalText.
    now rewrite (fold "right" s eq_refl E).
  - intros v m0 [-> | ->].
    + exists "none". split; reflexivity.
    + exists "pango". split; reflexivity.
  - intros E. unfold Markup_UnmarshalText.
    now rewrite (fold "none" s eq_refl E).
  - intros E. unfold Markup_UnmarshalText.
    now rewrite (fold "pango" s eq_refl E).
Qed.

Lemma text_codec_roundtrip_witness :
  (exists b, Alignment_MarshalText Right = (Some b, None) /\
             Alignment_UnmarshalText (fun s => s) Left b = (Right, None)) /\
  Alignment_UnmarshalText (fun s => s) Left "CeNtEr" = (Center, None) /\
  (exists b, Markup_MarshalText Pango = (Some b, None) /\
             Markup_UnmarshalText (fun s => s) NoMarkup b = (Pango, None)) /\
  Markup_UnmarshalText (fun s => s) Pango "NONE" = (NoMarkup, None).
Proof.
  destruct (text_codec_roundtrip (fun s => s)) as (A & B & C & D).
  split; [| split; [| split]].
  - apply A. right. right. reflexivity.
  - apply (B "CeNtEr" Left). reflexivity.
  - apply C. right. reflexivity.
  - apply (D "NONE" Pango). reflexivity.
Defined.

(** C5. A text that spells no variant, whatever its case, is refused by
    [UnmarshalText] of Alignment and of Markup: the error message holds
    the text as given, and the target keeps the value it had. The
    spelling is judged as the code judges it, on the text folded by
    [strings.ToLower]; for an ASCII text that is: no mix of upper and
    lower case of a variant's name. *)
Theorem unmarshal_unknown_text (u : string -> string) :
  (forall (a : Alignment) (s : string),
     Strings.ToLower u s <> "left" -> Strings.ToLower u s <> "center" ->
     Strings.ToLower u s <> "right" ->
     exists err, Alignment_UnmarshalText u a s = (a, Some err) /\
                 Bytes.contains (Error err) s) /\
  (forall (a : Alignment) (s : string),
     Strings.isASCII s = true ->
     Strings.mixedCaseOf "left" s = false ->
     Strings.mixedCaseOf "center" s = false ->
     Strings.mixedCaseOf "right" s = false ->
     exists err, Alignment_UnmarshalText u a s = (a, Some err) /\
                 Bytes.contains (Error err) s) /\
  (forall (m : Markup) (s : string),
     Strings.ToLower u s <> "none" -> Strings.ToLower u s <> "pango" ->
     exists err, Markup_UnmarshalText u m s = (m, Some err) /\
                 Bytes.contains (Error err) s) /\
  (forall (m : Markup) (s : string),
     Strings.isASCII s = true ->
     Strings.mixedCaseOf "none" s = false ->
     Strings.mixedCaseOf "pango" s = false ->
     exists err, Markup_UnmarshalText u m s = (m, Some err) /\
                 Bytes.contains (Error err) s).
Proof.
  assert (A : forall a s,
            Strings.ToLower u s <> "left" -> Strings.ToLower u s <> "center" ->
            Strings.ToLower u s <> "right" ->
            exists err, Alignment_UnmarshalText u a s = (a, Some err) /\
                        Bytes.contains (Error err) s).
  { intros a s H1 H2 H3. eexists. split.
    - now apply Alignment_UnmarshalText_unknown.
    - cbn [Error]. apply BytesFacts.contains_app_l, BytesFacts.contains_refl. }
  assert (M : forall m s,
            Strings.ToLower u s <> "none" -> Strings.ToLower u s <> "pango" ->
            exists err, Markup_UnmarshalText u m s = (m, Some err) /\
                        Bytes.contains (Error err) s).
  { intros m s H1 H2. eexists. split.
    - now apply Markup_UnmarshalText_unknown.
    - cbn [Error]. apply BytesFacts.contains_app_l, BytesFacts.contains_refl. }
  split; [exact A | split; [| split; [exact M |]]].
  - intros a s Hs H1 H2 H3.
    apply A; apply not_mixedCase_fold; auto.
  - intros m s Hs H1 H2.
    apply M; apply not_mixedCase_fold; auto.
Qed.

Lemma unmarshal_unknown_text_witness :
  exists err, Alignment_UnmarshalText (fun s => s) Center "up" = (Center, Some err) /\
              Bytes.contains (Error err) "up".
Proof.
  apply (proj1 (unmarshal_unknown_text (fun s => s)) Center "up");
    vm_compute; discriminate.
Defined.

(** C8. [MarshalText] of an Alignment outside Left, Center, Right fails
    with "unknown alignment: " and the value in decimal, and of a Markup
    outside NoMarkup, Pango with "unknown markup: " and the value; on
    every variant it gives the lower-case name and no error. *)
Theorem marshal_text_variants :
  (forall a : Alignment, a <> Left -> a <> Center -> a <> Right ->
     Alignment_MarshalText a
     = (None, Some (Errorf ("unknown alignment: " ++ Bytes.itoa a)))) /\
  Alignment_MarshalText Left = (Some "left", None) /\
  Alignment_MarshalText Center = (Some "center", None) /\
  Alignment_MarshalText Right = (Some "right", None) /\
  (forall m : Markup, m <> NoMarkup -> m <> Pango ->
     Markup_MarshalText m
     = (None, Some (Errorf ("unknown markup: " ++ Bytes.itoa m)))) /\
  Markup_MarshalText NoMarkup = (Some "none", None) /\
  Markup_MarshalText Pango = (Some "pango", None).
Proof.
  repeat split.
  - intros a H1 H2 H3. unfold Alignment_MarshalText.
    apply Z.eqb_neq in H1, H2, H3. now rewrite H1, H2, H3.
  - intros m H1 H2. unfold Markup_MarshalText.
    apply Z.eqb_neq in H1, H2. now rewrite H1, H2.
Qed.

Lemma marshal_text_variants_witness :
  Alignment_MarshalText 7 = (None, Some (Errorf "unknown alignment: 7")) /\
  Markup_MarshalText (-1) = (None, Some (Errorf "unknown markup: -1")).
Proof.
  split.
  - apply (proj1 marshal_text_variants 7); discriminate.
  - apply (proj1 (proj2 (proj2 (proj2 (proj2 marshal_text_variants)))) (-1));
      discriminate.
Defined.

(** ** Fields of a Block *)

Section OmitEmpty.

Lemma structEncoder_error_after (f : field) (rest : list field) (j : json) (e : error) :
  encoded f = inl j -> structEncoder rest = inr e ->
  structEncoder (f :: rest) = inr e.
Proof.
  intros Ef Er. cbn [structEncoder].
  destruct (omitEmpty f && isEmptyValue f); [assumption |].
  now rewrite Ef, Er.
Qed.

Lemma isZero_string (s : string) :
  String.eqb s EmptyString = true -> s = EmptyString.
Proof. apply String.eqb_eq. Qed.

Lemma nonempty_length (s : string) :
  String.eqb s EmptyString = false -> Nat.eqb (String.length s) 0 = false.
Proof. destruct s; [discriminate | reflexivity]. Qed.

(** With every optional field at zero the object holds the full text
    alone. *)
Lemma marshal_textBlock (text : string) :
  marshal_Block (textBlock text) = inl (JObject [("full_text", JString text)]).
Proof. reflexivity. Qed.

Lemma allZero_textBlock (b : Block) :
  (forall o, isZero o b = true) -> b = textBlock (Block.FullText b).
Proof.
  intros Z. destruct b as [n i t s c bg bd mw a ur sp w m].
  pose proof (isZero_string _ (Z OName)).
  pose proof (isZero_string _ (Z OInstance)).
  pose proof (isZero_string _ (Z OShortText)).
  pose proof (isZero_string _ (Z OColor)).
  pose proof (isZero_string _ (Z OBackground)).
  pose proof (isZero_string _ (Z OBorder)).
  pose proof (isZero_string _ (Z OMinWidth)).
  pose proof (proj1 (Z.eqb_eq _ _) (Z OAlign)).
  pose proof (proj1 (negb_true_iff _) (Z OUrgent)).
  pose proof (proj1 (negb_true_iff _) (Z OSeparator)).
  pose proof (proj1 (Z.eqb_eq _ _) (Z OSeparatorBlockWidth)).
  pose proof (proj1 (Z.eqb_eq _ _) (Z OMarkup)).
  cbn in *. subst. reflexivity.
Qed.

End OmitEmpty.

Section BlockFields.

Lemma isAlignment_cases (a : Alignment) :
  isAlignment a = true -> a = Left \/ a = Center \/ a = Right.
Proof.
  unfold isAlignment. intros E.
  apply orb_true_iff in E as [E | E]; [apply orb_true_iff in E as [E | E] |];
    apply Z.eqb_eq in E; auto.
Qed.

Lemma isMarkup_cases (m : Markup) :
  isMarkup m = true -> m = NoMarkup \/ m = Pango.
Proof.
  unfold isMarkup. intros E.
  apply orb_true_iff in E as [E | E]; apply Z.eqb_eq in E; auto.
Qed.

Lemma alignField_ok (a : Alignment) :
  isAlignment a = true -> exists j, encoded (alignField a) = inl j.
Proof.
  intros E. destruct (isAlignment_cases a E) as [-> | [-> | ->]];
    eexists; reflexivity.
Qed.

Lemma alignField_fails (a : Alignment) :
  isAlignment a = false ->
  omitEmpty (alignField a) && isEmptyValue (alignField a) = false /\
  encoded (alignField a)
  = inr (MarshalerError "i3bar.Alignment"
           (Errorf ("unknown alignment: " ++ Bytes.itoa a)) "MarshalText").
Proof.
  unfold isAlignment, alignField, Alignment_MarshalText. intros E.
  apply orb_false_iff in E as [E E3]. apply orb_false_iff in E as [E1 E2].
  cbn [omitEmpty isEmptyValue encoded andb]. unfold Left in *.
  now rewrite E1, E2, E3.
Qed.

Lemma markupField_fails (m : Markup) :
  isMarkup m = false ->
  omitEmpty (markupField m) && isEmptyValue (markupField m) = false /\
  encoded (markupField m)
  = inr (MarshalerError "i3bar.Markup"
           (Errorf ("unknown markup: " ++ Bytes.itoa m)) "MarshalText").
Proof.
  unfold isMarkup, markupField, Markup_MarshalText. intros E.
  apply orb_false_iff in E as [E1 E2].
  cbn [omitEmpty isEmptyValue encoded andb]. unfold NoMarkup in *.
  now rewrite E1, E2.
Qed.

Lemma marshal_Block_bad_align (b : Block) :
  isAlignment (Block.Align b) = false ->
  marshal_Block b
  = inr (MarshalerError "i3bar.Alignment"
           (Errorf ("unknown alignment: " ++ Bytes.itoa (Block.Align b)))
           "MarshalText").
Proof.
  intros E. destruct (alignField_fails _ E) as [E1 E2].
  unfold marshal_Block, encodeStruct.
  match goal with |- match ?X with _ => _ end = inr ?r =>
    assert (Es : X = inr r); [| now rewrite Es] end.
  unfold Block_fields.
  do 8 (eapply structEncoder_error_after; [reflexivity |]).
  cbn [structEncoder]. now rewrite E1, E2.
Qed.

Lemma marshal_Block_bad_markup (b : Block) :
  isAlignment (Block.Align b) = true -> isMarkup (Block.Markup b) = false ->
  marshal_Block b
  = inr (MarshalerError "i3bar.Markup"
           (Errorf ("unknown markup: " ++ Bytes.itoa (Block.Markup b)))
           "MarshalText").
Proof.
  intros Ea E. destruct (markupField_fails _ E) as [E1 E2].
  destruct (alignField_ok _ Ea) as [ja Eja].
  unfold marshal_Block, encodeStruct.
  match goal with |- match ?X with _ => _ end = inr ?r =>
    assert (Es : X = inr r); [| now rewrite Es] end.
  unfold Block_fields.
  do 8 (eapply structEncoder_error_after; [reflexivity |]).
  eapply structEncoder_error_after; [exact Eja |].
  do 3 (eapply structEncoder_error_after; [reflexivity |]).
  cbn [structEncoder]. now rewrite E1, E2.
Qed.

End BlockFields.

Section FieldOmission.

Ltac block_cbn H :=
  cbn [isZero Block.Name Block.Instance Block.FullText Block.ShortText
       Block.Color Block.Background Block.Border Block.MinWidth Block.Align
       Block.Urgent Block.Separator Block.SeparatorBlockWidth Block.Markup]
    in H.

Ltac zero_of Hz o' :=
  try (let E := fresh "E" in
       assert (E := Hz o' ltac:(discriminate));
       block_cbn E;
       first [apply isZero_string in E | apply Z.eqb_eq in E
             | apply negb_true_iff in E]).

Ltac variant_of H Hnz :=
  match type of H with
  | ?x = _ \/ _ =>
      first [ is_var x;
              repeat (destruct H as [H | H]); subst x; try discriminate Hnz
            | clear H ]
  end.

Lemma onlySet_showsOnly (b : Block) (o : optional) :
  onlySet o b ->
  isAlignment (Block.Align b) = true -> isMarkup (Block.Markup b) = true ->
  showsOnly o (marshal_Block b).
Proof.
  intros [Hnz Hz] Ha Hm.
  destruct b as [n i t s c bg bd mw a ur sp w m].
  cbn [Block.Align Block.Markup] in Ha, Hm.
  apply isAlignment_cases in Ha. apply isMarkup_cases in Hm.
  destruct o;
    zero_of Hz OName; zero_of Hz OInstance; zero_of Hz OShortText;
    zero_of Hz OColor; zero_of Hz OBackground; zero_of Hz OBorder;
    zero_of Hz OMinWidth; zero_of Hz OAlign; zero_of Hz OUrgent;
    zero_of Hz OSeparator; zero_of Hz OSeparatorBlockWidth; zero_of Hz OMarkup;
    clear Hz; subst; block_cbn Hnz;
    variant_of Ha Hnz; variant_of Hm Hnz;
    try apply nonempty_length in Hnz;
    try (apply negb_false_iff in Hnz; subst);
    unfold showsOnly, marshal_Block, encodeStruct, Block_fields,
      stringField, intField, boolField, alignField, markupField;
    cbn [structEncoder omitEmpty isEmptyValue encoded name andb negb
         String.length Nat.eqb
         Block.Name Block.Instance Block.FullText Block.ShortText
         Block.Color Block.Background Block.Border Block.MinWidth Block.Align
         Block.Urgent Block.Separator Block.SeparatorBlockWidth Block.Markup];
    try rewrite Hnz;
    (eexists; split; [reflexivity |]; cbn [List.map fst key];
     first [apply Permutation_refl | apply perm_swap]).
Qed.

End FieldOmission.

(** C3, as specified, fails: a block whose one set field is an alignment
    outside the three variants has no encoding at all. *)
Lemma omission_fails_on_undefined_alignment : ~ omission_as_specified.
Proof.
  intros claim.
  assert (S : onlySet OAlign oddBlock).
  { split; [reflexivity |]. intros [] Ho; first [reflexivity | now elim Ho]. }
  destruct (claim oddBlock OAlign S) as (fields & E & _).
  discriminate E.
Qed.

(** C3, amended. A block whose optional fields are all zero encodes as an
    object with the key "full_text" alone, also when the text is empty.
    With exactly one optional field set, to a variant where the field is
    an alignment or a markup, the object holds "full_text" and the key of
    that field and nothing else. An alignment or markup outside the
    variants makes the encoding fail. *)
Theorem block_field_omission :
  (forall b : Block, (forall o, isZero o b = true) ->
     marshal_Block b = inl (JObject [("full_text", JString (Block.FullText b))])) /\
  marshal_Block (textBlock EmptyString)
  = inl (JObject [("full_text", JString EmptyString)]) /\
  (forall (b : Block) (o : optional),
     onlySet o b ->
     isAlignment (Block.Align b) = true -> isMarkup (Block.Markup b) = true ->
     showsOnly o (marshal_Block b)) /\
  (forall b : Block, isAlignment (Block.Align b) = false ->
     marshal_Block b
     = inr (MarshalerError "i3bar.Alignment"
              (Errorf ("unknown alignment: " ++ Bytes.itoa (Block.Align b)))
              "MarshalText")) /\
  (forall b : Block,
     isAlignment (Block.Align b) = true -> isMarkup (Block.Markup b) = false ->
     marshal_Block b
     = inr (MarshalerError "i3bar.Markup"
              (Errorf ("unknown markup: " ++ Bytes.itoa (Block.Markup b)))
              "MarshalText")).
Proof.
  split; [| split; [| split; [| split]]].
  - intros b Z. rewrite (allZero_textBlock b Z) at 1. apply marshal_textBlock.
  - reflexivity.
  - apply onlySet_showsOnly.
  - apply marshal_Block_bad_align.
  - apply marshal_Block_bad_markup.
Qed.

Lemma block_field_omission_witness :
  marshal_Block (textBlock "CPU 10%")
  = inl (JObject [("full_text", JString "CPU 10%")]) /\
  showsOnly OUrgent (marshal_Block urgentBlock) /\
  Json.render true (JObject [("full_text", JString EmptyString)])
  = "{" ++ Bytes.quoted "full_text" ++ ":" ++ Bytes.quoted EmptyString ++ "}" /\
  marshal_Block oddBlock
  = inr (MarshalerError "i3bar.Alignment" (Errorf "unknown alignment: 3")
           "MarshalText").
Proof.
  destruct block_field_omission as (A & _ & C & D & _).
  split; [| split; [| split]].
  - apply (A (textBlock "CPU 10%")). intros []; reflexivity.
  - apply (C urgentBlock OUrgent); [| reflexivity | reflexivity].
    split; [reflexivity |]. intros [] Ho; first [reflexivity | now elim Ho].
  - reflexivity.
  - apply (D oddBlock). reflexivity.
Defined.

(** ** The stream, call by call *)

Section StreamFacts.

Context {W R : Type} `{Writer W}.

Lemma marshal_Header_ok (h : Header) : exists j, marshal_Header h = inl j.
Proof.
  destruct h as [v s c k]. unfold marshal_Header, encodeStruct, Header_fields.
  unfold intField, boolField.
  cbn [structEncoder omitEmpty isEmptyValue encoded name andb
       Version StopSignal ContSignal ClickEvents].
  destruct (s =? 0), (c =? 0), (negb k); eexists; reflexivity.
Qed.

Lemma encoderOf_err (pretty : bool) : Encoder.err (encoderOf pretty) = None.
Proof. now destruct pretty. Qed.

Lemma bytesOf_encoderOf (pretty : bool) (j : json) :
  Encoder.bytesOf (encoderOf pretty) j = rendering pretty j ++ newlineByte.
Proof. now destruct pretty. Qed.

(** [Encode] on an encoder that has met no write error. *)
Lemma Encode_value (enc : Encoder.t) (w : W) (j : json) :
  Encoder.err enc = None ->
  Encoder.Encode enc w (inl j)
  = let '(w', (_, werr)) := Write w (Encoder.bytesOf enc j) in
    match werr with
    | Some e =>
        (Encoder.mk (Some e) (Encoder.indentPrefix enc) (Encoder.indentValue enc)
                    (Encoder.escapeHTML enc), w', Some e)
    | None => (enc, w', None)
    end.
Proof. intros E. unfold Encoder.Encode. now rewrite E. Qed.

(** [NewStream] is two writes: the header, then the bracket. *)
Lemma NewStream_writes (w : W) (r : R) (pretty : bool) (h : Header) :
  NewStream w r pretty h
  = let '(w1, (_, err1)) := Write w (headerBytes pretty h) in
    match err1 with
    | Some err => (w1, (None, Some (Wrap err "Failed to send header")))
    | None =>
        let '(w2, (_, err2)) := Write w1 "[" in
        match err2 with
        | Some err =>
            (w2, (None, Some (Wrap err "Failed to start infinite json array")))
        | None =>
            (w2, (Some (Stream.mk w2 (encoderOf pretty) Mutex.unlocked r
                                  (Decoder.NewDecoder r)), None))
        end
    end.
Proof.
  destruct (marshal_Header_ok h) as [j Ej].
  unfold NewStream, headerBytes. rewrite Ej.
  fold (encoderOf pretty).
  rewrite (Encode_value _ _ _ (encoderOf_err pretty)).
  destruct (Write w (Encoder.bytesOf (encoderOf pretty) j)) as [w1 [n1 [e1 |]]];
    [reflexivity |].
  destruct (Write w1 "[") as [w2 [n2 [e2 |]]]; reflexivity.
Qed.

Lemma NewStream_idle (w w' : W) (r : R) (pretty : bool) (h : Header)
      (s : Stream W R) (err : option error) :
  NewStream w r pretty h = (w', (Some s, err)) ->
  idle s /\ Stream.w s = w' /\ Stream.e s = encoderOf pretty /\ err = None.
Proof.
  rewrite NewStream_writes.
  destruct (Write w (headerBytes pretty h)) as [w1 [n1 [e1 |]]];
    [discriminate |].
  destruct (Write w1 "[") as [w2 [n2 [e2 |]]]; [discriminate |].
  intros E. injection E as <- <- <-. now repeat split.
Qed.

(** On an idle stream [SendLine] returns, and leaves the stream idle. *)
Lemma SendLine_idle (s : Stream W R) (b : StatusLine) :
  idle s ->
  exists s' err, SendLine s b = Some (s', err) /\ idle s' /\
                 (s', err)
                 = let '(e', w', err) :=
                     Encoder.Encode (Stream.e s) (Stream.w s) (marshal_StatusLine b) in
                   (Stream.mk w' e' Mutex.unlocked (Stream.r s) (Stream.d s),
                    match err with
                    | Some err =>
                        Some (Wrap err "Failed to encode status line into json stream")
                    | None => None
                    end).
Proof.
  unfold idle, SendLine, Mutex.Lock. intros ->.
  destruct (Encoder.Encode (Stream.e s) (Stream.w s) (marshal_StatusLine b))
    as [[e' w'] [err |]]; eexists; eexists; (split; [reflexivity |]);
    split; reflexivity.
Qed.

Lemma SendLines_idle (lines : list StatusLine) (s : Stream W R) :
  idle s -> exists s' errs, SendLines s lines = Some (s', errs) /\ idle s'.
Proof.
  revert s. induction lines as [| b rest IH]; intros s Hs.
  - exists s, []. now split.
  - destruct (SendLine_idle s b Hs) as (s1 & err & E1 & Hs1 & _).
    destruct (IH s1 Hs1) as (s2 & errs & E2 & Hs2).
    exists s2, (err :: errs). cbn [SendLines]. now rewrite E1, E2.
Qed.

(** On an idle stream [Close] returns, after the one write of a bracket. *)
Lemma Close_idle (s : Stream W R) :
  idle s ->
  Close s
  = let '(w', (_, err)) := Write (Stream.w s) "]" in
    Some (Stream.mk w' (Stream.e s) Mutex.unlocked (Stream.r s) (Stream.d s),
          match err with
          | Some err => Some (Wrap err "Failed to close infinite json array")
          | None => None
          end).
Proof.
  unfold idle, Close, Mutex.Lock. intros ->.
  destruct (Write (Stream.w s) "]") as [w' [n [err |]]]; reflexivity.
Qed.

End StreamFacts.

Section RecorderFacts.

Context {W : Type} `{Writer W}.

Lemma Recorder_Write (k : Recorder W) (p : string) :
  Write k p
  = (mkRecorder (fst (Write (inner k) p)) (calls k ++ [p]), snd (Write (inner k) p)).
Proof.
  unfold Write at 1. unfold Recorder_Writer.
  now destruct (Write (inner k) p).
Qed.

End RecorderFacts.

Lemma SendLines_keeps_idle {W R : Type} `{Writer W}
      (lines : list StatusLine) (s s' : Stream W R) (errs : list (option error)) :
  idle s -> SendLines s lines = Some (s', errs) -> idle s'.
Proof.
  intros Hs E. destruct (SendLines_idle lines s Hs) as (s1 & errs1 & E1 & Hs1).
  rewrite E1 in E. now injection E as <- _.
Qed.

(** C7. When the write of the header fails, [NewStream] returns no
    stream and the error of the write wrapped, and the write of the
    header is the only call the sink has seen: the bracket is not
    written. When the write of the bracket fails, [NewStream] returns no
    stream and that error wrapped. *)
Theorem construction_failure {W R : Type} `{Writer W}
        (w : Recorder W) (r : R) (pretty : bool) (h : Header) :
  (forall w1 n e,
     Write (inner w) (headerBytes pretty h) = (w1, (n, Some e)) ->
     NewStream w r pretty h
     = (mkRecorder w1 (calls w ++ [headerBytes pretty h]),
        (None, Some (Wrap e "Failed to send header")))) /\
  (forall w1 n w2 n' e,
     Write (inner w) (headerBytes pretty h) = (w1, (n, None)) ->
     Write w1 "[" = (w2, (n', Some e)) ->
     NewStream w r pretty h
     = (mkRecorder w2 (calls w ++ [headerBytes pretty h; "["]),
        (None, Some (Wrap e "Failed to start infinite json array")))).
Proof.
  split.
  - intros w1 n e E. rewrite NewStream_writes, Recorder_Write, E. reflexivity.
  - intros w1 n w2 n' e E1 E2.
    rewrite NewStream_writes, Recorder_Write, E1. cbn [fst snd].
    rewrite Recorder_Write. cbn [inner calls]. rewrite E2. cbn [fst snd].
    now rewrite <- List.app_assoc.
Qed.

Lemma construction_failure_witness :
  NewStream (R := unit) (failsAt 0) tt false header1
  = (mkRecorder (mkScripted EmptyString []) [headerBytes false header1],
     (None, Some (Wrap brokenPipe "Failed to send header"))) /\
  NewStream (R := unit) (failsAt 1) tt false header1
  = (mkRecorder (mkScripted (headerBytes false header1) [])
                [headerBytes false header1; "["],
     (None, Some (Wrap brokenPipe "Failed to start infinite json array"))).
Proof.
  split.
  - apply (proj1 (construction_failure (failsAt 0) tt false header1)
                 (mkScripted EmptyString []) 0 brokenPipe).
    reflexivity.
  - apply (proj2 (construction_failure (failsAt 1) tt false header1)
                 (mkScripted (headerBytes false header1) [Some brokenPipe])
                 (lenZ (headerBytes false header1))
                 (mkScripted (headerBytes false header1) []) 0 brokenPipe);
      reflexivity.
Defined.

(** ** Messages of the write errors *)

Lemma hasPrefix_app (sub post : string) : hasPrefix (sub ++ post) sub = true.
Proof.
  induction sub as [| a sub IH]; [reflexivity |].
  cbn [hasPrefix append]. now rewrite Ascii.eqb_refl, IH.
Qed.

Lemma containsb_complete (s sub : string) :
  Bytes.contains s sub -> containsb s sub = true.
Proof.
  intros (pre & post & ->). induction pre as [| a pre IH].
  - cbn [append]. destruct (sub ++ post) eqn:E; cbn [containsb];
      rewrite <- E, hasPrefix_app; reflexivity.
  - cbn [append containsb]. rewrite IH. apply orb_true_r.
Qed.

(** C4, as specified, fails: the message of a failing header write does
    not hold the text "failed to send header". *)
Lemma messages_differ_from_specified : ~ messages_as_specified.
Proof.
  unfold messages_as_specified, specMessages. intros F.
  inversion F as [| e m es ms C _]; subst.
  apply containsb_complete in C. vm_compute in C. discriminate C.
Qed.

(** Nor is the difference one of case alone: folded to lower case, the
    message of a failing bracket write still does not hold the text of
    the specification. *)
Lemma open_message_differs_beyond_case :
  containsb (Bytes.map Strings.lowerByte (message openFailure))
            "failed to start infinite array" = false.
Proof. reflexivity. Qed.

(** C4, amended. Each failing write comes back wrapped with the message
    of its phase: "Failed to send header" for the header, "Failed to
    start infinite json array" for the opening bracket, "Failed to
    encode status line into json stream" for an element in [SendLine],
    "Failed to close infinite json array" for the closing bracket; the
    message of the wrapped error is that text, a colon, and the message
    of the sink's error. *)
Theorem write_errors_wrapped {W R : Type} `{Writer W} :
  (forall (w : W) (r : R) pretty h w1 n e,
     Write w (headerBytes pretty h) = (w1, (n, Some e)) ->
     snd (NewStream w r pretty h) = (None, Some (Wrap e "Failed to send header"))) /\
  (forall (w : W) (r : R) pretty h w1 n w2 n' e,
     Write w (headerBytes pretty h) = (w1, (n, None)) ->
     Write w1 "[" = (w2, (n', Some e)) ->
     snd (NewStream w r pretty h)
     = (None, Some (Wrap e "Failed to start infinite json array"))) /\
  (forall (s : Stream W R) b j w1 n e,
     idle s -> Encoder.err (Stream.e s) = None ->
     marshal_StatusLine b = inl j ->
     Write (Stream.w s) (Encoder.bytesOf (Stream.e s) j) = (w1, (n, Some e)) ->
     exists s',
       SendLine s b
       = Some (s', Some (Wrap e "Failed to encode status line into json stream"))) /\
  (forall (s : Stream W R) w1 n e,
     idle s -> Write (Stream.w s) "]" = (w1, (n, Some e)) ->
     exists s',
       Close s = Some (s', Some (Wrap e "Failed to close infinite json array"))) /\
  (forall e msg, Error (Wrap e msg) = msg ++ ": " ++ Error e).
Proof.
  split; [| split; [| split; [| split]]].
  - intros w r pretty h w1 n e E. now rewrite NewStream_writes, E.
  - intros w r pretty h w1 n w2 n' e E1 E2.
    now rewrite NewStream_writes, E1, E2.
  - intros s b j w1 n e Hs He Ej Ew.
    unfold idle in Hs. unfold SendLine, Mutex.Lock. rewrite Hs, Ej.
    rewrite (Encode_value _ _ _ He), Ew. eexists. reflexivity.
  - intros s w1 n e Hs Ew. rewrite (Close_idle s Hs), Ew. eexists. reflexivity.
  - reflexivity.
Qed.

Lemma write_errors_wrapped_witness :
  headerFailure = Some (Wrap brokenPipe "Failed to send header") /\
  openFailure = Some (Wrap brokenPipe "Failed to start infinite json array") /\
  lineFailure
  = Some (Wrap brokenPipe "Failed to encode status line into json stream") /\
  closeFailure = Some (Wrap brokenPipe "Failed to close infinite json array").
Proof.
  destruct (@write_errors_wrapped (Recorder Scripted) unit _) as (A & B & C & D & _).
  split; [| split; [| split]].
  - unfold headerFailure.
    erewrite (A (failsAt 0) tt false header1); [reflexivity | reflexivity].
  - unfold openFailure.
    erewrite (B (failsAt 1) tt false header1); [reflexivity | reflexivity ..].
  - unfold lineFailure.
    destruct (NewStream (R := unit) (failsAt 2) tt false header1)
      as [w [[s |] err]] eqn:E; [| discriminate E].
    injection E as _ <- _.
    match goal with |- context [SendLine ?s cpuLine] =>
      destruct (C s cpuLine
                  (JArray [JObject [("full_text", JString "CPU 10%")]])
                  (mkRecorder
                     (mkScripted (headerBytes false header1 ++ "[") [])
                     [headerBytes false header1; "[";
                      Encoder.bytesOf Encoder.NewEncoder
                        (JArray [JObject [("full_text", JString "CPU 10%")]])])
                  0 brokenPipe eq_refl eq_refl eq_refl eq_refl) as [s' ->]
    end.
    reflexivity.
  - unfold closeFailure.
    destruct (NewStream (R := unit) (failsAt 2) tt false header1)
      as [w [[s |] err]] eqn:E; [| discriminate E].
    injection E as _ <- _.
    match goal with |- context [Close ?s] =>
      destruct (D s
                  (mkRecorder
                     (mkScripted (headerBytes false header1 ++ "[") [])
                     [headerBytes false header1; "["; "]"])
                  0 brokenPipe eq_refl eq_refl) as [s' ->]
    end.
    reflexivity.
Defined.

(** ** Framing on a buffer *)

Section BufferFacts.

Context {R : Type}.

Lemma SendLine_Buffer (s : Stream Buffer R) (b : StatusLine) (j : json) :
  idle s -> Encoder.err (Stream.e s) = None -> marshal_StatusLine b = inl j ->
  SendLine s b
  = Some (Stream.mk (Stream.w s ++ Encoder.bytesOf (Stream.e s) j) (Stream.e s)
                    Mutex.unlocked (Stream.r s) (Stream.d s), None).
Proof.
  unfold idle, SendLine, Mutex.Lock. intros -> He ->.
  now rewrite (Encode_value _ _ _ He).
Qed.

Lemma SendLines_Buffer (pretty : bool) (lines : list StatusLine) (js : list json)
      (s : Stream Buffer R) :
  idle s -> Stream.e s = encoderOf pretty ->
  List.map marshal_StatusLine lines = List.map inl js ->
  exists s',
    SendLines s lines = Some (s', List.map (fun _ => None) js) /\
    idle s' /\ Stream.e s' = encoderOf pretty /\
    Stream.w s'
    = Stream.w s
        ++ String.concat EmptyString
             (List.map (fun j => rendering pretty j ++ newlineByte) js).
Proof.
  revert js s. induction lines as [| b rest IH]; intros [| j js] s Hs He E;
    try discriminate E.
  - exists s. cbn. rewrite BytesFacts.app_nil_r. now repeat split.
  - cbn [List.map] in E. injection E as Eb Erest.
    assert (Herr : Encoder.err (Stream.e s) = None)
      by (rewrite He; apply encoderOf_err).
    pose proof (SendLine_Buffer s b j Hs Herr Eb) as E1.
    rewrite He, bytesOf_encoderOf in E1.
    match type of E1 with _ = Some (?s1, _) =>
      destruct (IH js s1 eq_refl eq_refl Erest) as (s' & E2 & Hs' & He' & Hw)
    end.
    exists s'. cbn [SendLines]. rewrite E1, E2. repeat split; try assumption.
    rewrite Hw. cbn [Stream.w List.map].
    rewrite BytesFacts.app_assoc. f_equal.
    destruct js; cbn [List.map String.concat].
    + now rewrite BytesFacts.app_nil_r.
    + reflexivity.
Qed.

End BufferFacts.

(** C6. A [Close] that succeeds makes one call of [Write] on the sink,
    with the single byte of a closing bracket, however many lines were
    sent before; on a buffer, [Close] returns and the buffer is longer by
    that byte. *)
Theorem close_writes_one_bracket {W R : Type} `{Writer W} :
  (forall (w0 w1 : Recorder W) (r : R) pretty h s0 lines s1 errs s2,
     NewStream w0 r pretty h = (w1, (Some s0, None)) ->
     SendLines s0 lines = Some (s1, errs) ->
     Close s1 = Some (s2, None) ->
     calls (Stream.w s2) = (calls (Stream.w s1) ++ ["]"])%list) /\
  (forall (w0 w1 : Buffer) (r : R) pretty h s0 lines s1 errs,
     NewStream w0 r pretty h = (w1, (Some s0, None)) ->
     SendLines s0 lines = Some (s1, errs) ->
     exists s2, Close s1 = Some (s2, None) /\
                Stream.w s2 = Stream.w s1 ++ "]" /\
                String.length (Stream.w s2) = S (String.length (Stream.w s1))).
Proof.
  split.
  - intros w0 w1 r pretty h s0 lines s1 errs s2 E0 E1 E2.
    destruct (NewStream_idle _ _ _ _ _ _ _ E0) as (Hs0 & _).
    pose proof (SendLines_keeps_idle _ _ _ _ Hs0 E1) as Hs1.
    rewrite (Close_idle s1 Hs1), Recorder_Write in E2.
    destruct (Write (inner (Stream.w s1)) "]") as [wi [n [e |]]];
      cbn [fst snd] in E2; [discriminate E2 |].
    injection E2 as <-. reflexivity.
  - intros w0 w1 r pretty h s0 lines s1 errs E0 E1.
    destruct (NewStream_idle _ _ _ _ _ _ _ E0) as (Hs0 & _).
    pose proof (SendLines_keeps_idle _ _ _ _ Hs0 E1) as Hs1.
    rewrite (Close_idle s1 Hs1). eexists. split; [reflexivity |].
    cbn [Stream.w]. split; [reflexivity |].
    rewrite BytesFacts.app_length. cbn. lia.
Qed.

Lemma close_writes_one_bracket_witness :
  match NewStream (R := unit) (mkRecorder (EmptyString : Buffer) []) tt false header1 with
  | (_, (Some s0, None)) =>
      match SendLines s0 [cpuLine; memLine] with
      | Some (s1, _) =>
          match Close s1 with
          | Some (s2, None) =>
              calls (Stream.w s2) = (calls (Stream.w s1) ++ ["]"])%list
          | _ => False
          end
      | None => False
      end
  | _ => False
  end.
Proof.
  destruct (NewStream (R := unit) (mkRecorder (EmptyString : Buffer) []) tt false header1)
    as [w1 [[s0 |] [e0 |]]] eqn:E0;
    try (vm_compute in E0; discriminate E0).
  assert (V0 := E0). vm_compute in V0. injection V0 as _ V0.
  destruct (SendLines s0 [cpuLine; memLine]) as [[s1 errs] |] eqn:E1;
    [| subst s0; vm_compute in E1; discriminate E1].
  assert (V1 := E1). subst s0. vm_compute in V1. injection V1 as V1 _.
  destruct (Close s1) as [[s2 [e2 |]] |] eqn:E2;
    try (subst s1; vm_compute in E2; discriminate E2).
  exact (proj1 (@close_writes_one_bracket Buffer unit _)
               _ _ _ _ _ _ _ _ _ _ E0 E1 E2).
Defined.

(** C10. Every value that goes through the encoder is one [Write] of its
    rendering followed by one newline byte. So on a buffer the header is
    followed by a newline and then the opening bracket, and the lines
    sent afterwards follow each other with a newline after each, and no
    comma between them. *)
Theorem values_end_in_newline {W R : Type} `{Writer W} :
  (forall (enc : Encoder.t) (w : Recorder W) (j : json),
     Encoder.err enc = None ->
     calls (snd (fst (Encoder.Encode enc w (inl j))))
     = (calls w
          ++ [((if Encoder.indented enc
                then renderIndent (Encoder.escapeHTML enc) (Encoder.indentPrefix enc)
                                  (Encoder.indentValue enc) 0 j
                else render (Encoder.escapeHTML enc) j) ++ newlineByte)%string])%list) /\
  (forall (w0 : Buffer) (r : R) pretty h hj lines js,
     marshal_Header h = inl hj ->
     List.map marshal_StatusLine lines = List.map inl js ->
     exists s0 s1 : Stream Buffer R,
       NewStream w0 r pretty h = (Stream.w s0, (Some s0, None)) /\
       Stream.w s0 = w0 ++ rendering pretty hj ++ newlineByte ++ "[" /\
       SendLines s0 lines = Some (s1, List.map (fun _ => None) js) /\
       Stream.w s1
       = Stream.w s0
           ++ String.concat EmptyString
                (List.map (fun j => rendering pretty j ++ newlineByte) js)).
Proof.
  split.
  - intros enc w j He. rewrite (Encode_value _ _ _ He), Recorder_Write.
    destruct (Write (inner w) (Encoder.bytesOf enc j)) as [wi [n [e |]]];
      reflexivity.
  - intros w0 r pretty h hj lines js Eh El.
    pose proof (NewStream_writes w0 r pretty h) as E0.
    unfold headerBytes in E0. rewrite Eh, bytesOf_encoderOf in E0.
    cbv beta iota zeta delta [Write Buffer_Writer] in E0.
    match type of E0 with _ = (_, (Some ?s, _)) => set (s0 := s) in * end.
    destruct (SendLines_Buffer pretty lines js s0 eq_refl eq_refl El)
      as (s1 & E1 & _ & _ & Hw).
    exists s0, s1. repeat split; try assumption.
    cbn [s0 Stream.w]. now rewrite !BytesFacts.app_assoc.
Qed.

Lemma values_end_in_newline_witness :
  exists s0 s1 : Stream Buffer unit,
    NewStream (EmptyString : Buffer) tt false header1
    = (Stream.w s0, (Some s0, None)) /\
    Stream.w s0 = specHeader ++ newlineByte ++ "[" /\
    SendLines s0 [cpuLine; memLine] = Some (s1, [None; None]) /\
    Stream.w s1
    = Stream.w s0 ++ specCpuElement ++ newlineByte
        ++ "[{" ++ Bytes.quoted "full_text" ++ ":" ++ Bytes.quoted "MEM 2G"
        ++ "," ++ Bytes.quoted "urgent" ++ ":true}]" ++ newlineByte.
Proof.
  exact (proj2 (@values_end_in_newline Buffer unit _)
               (EmptyString : Buffer) tt false header1
               (JObject [("version", JInt 1)])
               [cpuLine; memLine]
               [JArray [JObject [("full_text", JString "CPU 10%")]];
                JArray [JObject [("full_text", JString "MEM 2G");
                                 ("urgent", JBool true)]]]
               eq_refl eq_refl).
Defined.

(** ** The scenario of the specification *)

(** C1, as specified, fails, compact or indented: the sink after
    construction is not the header object with the bracket right behind
    it. *)
Lemma scenario_differs_from_specified :
  ~ exists pretty, scenario_as_specified pretty.
Proof.
  intros (pretty & s & E & _).
  destruct pretty; vm_compute in E; discriminate E.
Qed.

(** C1, amended. Constructing a compact stream with version 1 over an
    empty buffer leaves in it the header object, a newline and the
    opening bracket; sending the one-block line "CPU 10%" then appends
    the element of the specification and a newline. *)
Theorem scenario_on_the_wire :
  exists s s' : Stream Buffer unit,
    NewStream (EmptyString : Buffer) tt false header1
    = (specHeader ++ newlineByte ++ "[", (Some s, None)) /\
    SendLine s cpuLine = Some (s', None) /\
    Stream.w s' = Stream.w s ++ specCpuElement ++ newlineByte.
Proof.
  eexists. eexists. split; [reflexivity |]. split; reflexivity.
Qed.

(** ** Concurrent callers *)

Module ConcurrentFacts.

Import Concurrent.

Lemma concat_cons (x : string) (l : list string) :
  String.concat EmptyString (x :: l) = x ++ String.concat EmptyString l.
Proof.
  destruct l; cbn [String.concat]; [now rewrite BytesFacts.app_nil_r | reflexivity].
Qed.

Lemma concat_app (a b : list string) :
  String.concat EmptyString (a ++ b)
  = String.concat EmptyString a ++ String.concat EmptyString b.
Proof.
  induction a as [| x a IH]; [reflexivity |].
  rewrite <- List.app_comm_cons, !concat_cons, IH.
  now rewrite BytesFacts.app_assoc.
Qed.

Lemma pending_app (a b : list pc) : pending (a ++ b) = (pending a ++ pending b)%list.
Proof.
  induction a as [| p a IH]; [reflexivity |].
  destruct p; cbn [pending List.app]; now rewrite IH.
Qed.

Lemma inflight_app (a b : list pc) : inflight (a ++ b) = inflight a ++ inflight b.
Proof.
  induction a as [| p a IH]; [reflexivity |].
  destruct p; cbn [inflight List.app]; rewrite IH;
    now rewrite ?BytesFacts.app_assoc.
Qed.

Lemma holders_app (a b : list pc) : holders (a ++ b) = (holders a + holders b)%nat.
Proof. unfold holders. now rewrite List.filter_app, List.length_app. Qed.

Lemma holders_cons (p : pc) (ts : list pc) :
  holders (p :: ts) = ((if critical p then 1 else 0) + holders ts)%nat.
Proof. unfold holders. cbn [List.filter]. now destruct (critical p). Qed.

(** Outside the critical section nothing is being written. *)
Lemma idle_inflight (ts : list pc) : holders ts = 0%nat -> inflight ts = EmptyString.
Proof.
  induction ts as [| p ts IH]; [reflexivity |].
  rewrite holders_cons. destruct p; cbn [critical inflight]; intros E;
    try discriminate E; now apply IH.
Qed.

Lemma finished_quiet (ts : list pc) :
  forallb returned ts = true -> pending ts = [] /\ inflight ts = EmptyString.
Proof.
  induction ts as [| p ts IH]; [now split |].
  cbn [forallb]. intros E. apply andb_true_iff in E as [Ep Ets].
  destruct p; try discriminate Ep. now apply IH.
Qed.

Section Invariant.

Variable enc : Encoder.t.

Lemma outputs_snoc (l : list call) (c : call) :
  outputs enc (l ++ [c]) = outputs enc l ++ fst (payload enc c).
Proof.
  unfold outputs. rewrite List.map_app, concat_app. cbn [List.map].
  now rewrite concat_cons, BytesFacts.app_nil_r.
Qed.

(** A move of the pool is a move of one goroutine in its place. *)
Lemma stepThread_inv (i : nat) (snk : string) (m : Mutex.t) (ts : list pc)
      (snk' : string) (m' : Mutex.t) (ts' : list pc) :
  stepThread enc i snk m ts = Some (snk', m', ts') ->
  exists pre p post p',
    ts = (pre ++ p :: post)%list /\ ts' = (pre ++ p' :: post)%list /\
    tstep enc snk m p = Some (snk', m', p').
Proof.
  revert i ts'. induction ts as [| q ts IH]; intros [| i] ts' E;
    cbn [stepThread] in E; try discriminate E.
  - destruct (tstep enc snk m q) as [[[s1 m1] q'] |] eqn:Eq; [| discriminate E].
    injection E as <- <- <-. now exists [], q, ts, q'.
  - destruct (stepThread enc i snk m ts) as [[[s1 m1] r] |] eqn:Er;
      [| discriminate E].
    injection E as <- <- <-.
    destruct (IH i r Er) as (pre & p & post & p' & -> & -> & Ep).
    now exists (q :: pre), p, post, p'.
Qed.

End Invariant.

End ConcurrentFacts.

Module Linearization.

Import Concurrent ConcurrentFacts.

Section Preservation.

Variable enc : Encoder.t.
Variable snk0 : string.
Variable calls : list call.

(** The holder of the lock is alone: around it nothing is written. *)
Lemma holder_alone (pre post : list pc) (p : pc) (m : Mutex.t) :
  critical p = true ->
  holders (pre ++ p :: post) = (if Mutex.locked m then 1%nat else 0%nat) ->
  Mutex.locked m = true /\ holders pre = 0%nat /\ holders post = 0%nat.
Proof.
  rewrite holders_app, holders_cons. intros ->.
  destruct (Mutex.locked m); intros E; repeat split; lia.
Qed.

Lemma invariant_start : invariant enc snk0 calls (start snk0 calls).
Proof.
  unfold invariant, start. cbn [threads mux sink Mutex.locked Mutex.unlocked].
  assert (P : forall l, pending (List.map AtLock l) = l)
    by (intros l; induction l as [| c l IH]; cbn [List.map pending]; congruence).
  assert (Hd : forall l, holders (List.map AtLock l) = 0%nat)
    by (intros l; induction l as [| c l IH]; [reflexivity |];
        cbn [List.map]; rewrite holders_cons; exact IH).
  specialize (P calls). specialize (Hd calls).
  split; [exact Hd |].
  exists []. rewrite P, (idle_inflight _ Hd). split; [apply Permutation_refl |].
  reflexivity.
Qed.

Lemma invariant_step (st st' : state) :
  invariant enc snk0 calls st -> step enc st st' -> invariant enc snk0 calls st'.
Proof.
  intros [Hm (started & Hp & Hs)] [i Ei]. unfold stepAt in Ei.
  destruct (stepThread enc i (sink st) (mux st) (threads st))
    as [[[snk' m'] ts'] |] eqn:Et; [| discriminate Ei].
  injection Ei as <-.
  destruct (stepThread_inv enc _ _ _ _ _ _ _ Et)
    as (pre & p & post & p' & Ets & -> & Ep).
  rewrite Ets in Hm, Hp, Hs. clear Et Ets.
  unfold invariant. cbn [threads mux sink].
  destruct p as [c | c | [| b rest] ret | ret | ret]; cbn [tstep] in Ep.
  - (* Lock *)
    unfold Mutex.Lock in Ep. destruct (Mutex.locked (mux st)) eqn:El;
      [discriminate Ep |].
    injection Ep as <- <- <-. cbn [Mutex.locked].
    rewrite holders_app, holders_cons in Hm |- *. cbn [critical] in Hm |- *.
    split; [lia |].
    exists started. rewrite pending_app in Hp; rewrite inflight_app in Hs;
      rewrite pending_app, inflight_app.
    cbn [pending inflight] in Hp, Hs |- *. now split.
  - (* the call hands its bytes to Write *)
    destruct (payload enc c) as [out ret] eqn:Ec. injection Ep as <- <- <-.
    destruct (holder_alone pre post (Locked c) (mux st) eq_refl Hm)
      as (_ & Hpre & Hpost).
    split.
    + rewrite holders_app, holders_cons in Hm |- *. exact Hm.
    + exists (started ++ [c])%list.
      rewrite pending_app in Hp; rewrite inflight_app in Hs;
      rewrite pending_app, inflight_app.
      cbn [pending inflight] in Hp, Hs |- *.
      rewrite (idle_inflight _ Hpre), (idle_inflight _ Hpost) in Hs;
      rewrite (idle_inflight _ Hpre), (idle_inflight _ Hpost).
      split.
      * rewrite <- List.app_assoc. cbn [List.app].
        eapply Permutation_trans; [exact Hp |].
        apply Permutation_app_head, Permutation_sym, Permutation_middle.
      * rewrite outputs_snoc, Ec. cbn [fst append] in Hs |- *.
        rewrite !BytesFacts.app_nil_r in *.
        now rewrite Hs, BytesFacts.app_assoc.
  - (* the write is over *)
    injection Ep as <- <- <-.
    split.
    + rewrite holders_app, holders_cons in Hm |- *. exact Hm.
    + exists started. rewrite pending_app in Hp; rewrite inflight_app in Hs;
      rewrite pending_app, inflight_app.
      cbn [pending inflight] in Hp, Hs |- *. now split.
  - (* one byte reaches the sink *)
    injection Ep as <- <- <-.
    destruct (holder_alone pre post (Writing (String b rest) ret) (mux st) eq_refl Hm)
      as (_ & Hpre & Hpost).
    split.
    + rewrite holders_app, holders_cons in Hm |- *. exact Hm.
    + exists started. rewrite pending_app in Hp; rewrite inflight_app in Hs;
      rewrite pending_app, inflight_app.
      cbn [pending inflight] in Hp, Hs |- *.
      rewrite (idle_inflight _ Hpre), (idle_inflight _ Hpost) in Hs;
      rewrite (idle_inflight _ Hpre), (idle_inflight _ Hpost).
      split; [exact Hp |].
      cbn [append] in Hs |- *. rewrite BytesFacts.app_nil_r in *.
      rewrite <- Hs, BytesFacts.app_assoc. reflexivity.
  - (* Unlock *)
    injection Ep as <- <- <-. cbn [Mutex.Unlock Mutex.locked].
    destruct (holder_alone pre post (AtUnlock ret) (mux st) eq_refl Hm)
      as (_ & Hpre & Hpost).
    split.
    + rewrite holders_app, holders_cons. cbn [critical]. lia.
    + exists started. rewrite pending_app in Hp; rewrite inflight_app in Hs;
      rewrite pending_app, inflight_app.
      cbn [pending inflight] in Hp, Hs |- *. now split.
  - discriminate Ep.
Qed.

Lemma invariant_exec (st st' : state) :
  exec enc st st' -> invariant enc snk0 calls st -> invariant enc snk0 calls st'.
Proof.
  induction 1 as [| st1 st2 st3 Hstep _ IH]; [trivial |].
  intros I. apply IH. eapply invariant_step; eassumption.
Qed.

Lemma run_exec (schedule : list nat) (st st' : state) :
  run enc schedule st = Some st' -> exec enc st st'.
Proof.
  revert st. induction schedule as [| i rest IH]; intros st E; cbn [run] in E.
  - injection E as <-. constructor.
  - destruct (stepAt enc i st) as [st1 |] eqn:E1; [| discriminate E].
    econstructor; [exists i; exact E1 | now apply IH].
Qed.

(** A goroutine that can move moves the pool. *)
Lemma stepThread_at (pre post : list pc) (p p' : pc) (snk snk' : string)
      (m m' : Mutex.t) :
  tstep enc snk m p = Some (snk', m', p') ->
  stepThread enc (List.length pre) snk m (pre ++ p :: post)
  = Some (snk', m', (pre ++ p' :: post)%list).
Proof.
  intros E. induction pre as [| q pre IH]; cbn [List.length List.app stepThread].
  - now rewrite E.
  - now rewrite IH.
Qed.

Lemma workload_app (a b : list pc) :
  workload enc (a ++ b) = (workload enc a + workload enc b)%nat.
Proof. unfold workload. now rewrite List.map_app, List.list_sum_app. Qed.

(** Every move is one move less to make. *)
Lemma tstep_work (snk snk' : string) (m m' : Mutex.t) (p p' : pc) :
  tstep enc snk m p = Some (snk', m', p') -> work enc p = S (work enc p').
Proof.
  destruct p as [c | c | [| b rest] ret | ret | ret]; cbn [tstep]; intros E.
  - destruct (Mutex.Lock m); [| discriminate E]. injection E as _ _ <-. reflexivity.
  - destruct (payload enc c) as [out ret] eqn:Ec. injection E as _ _ <-.
    cbn [work]. now rewrite Ec.
  - injection E as _ _ <-. reflexivity.
  - injection E as _ _ <-. reflexivity.
  - injection E as _ _ <-. reflexivity.
  - discriminate E.
Qed.

Lemma step_workload (st st' : state) :
  step enc st st' -> workload enc (threads st) = S (workload enc (threads st')).
Proof.
  intros [i Ei]. unfold stepAt in Ei.
  destruct (stepThread enc i (sink st) (mux st) (threads st))
    as [[[snk' m'] ts'] |] eqn:Et; [| discriminate Ei].
  injection Ei as <-. cbn [threads].
  destruct (stepThread_inv enc _ _ _ _ _ _ _ Et)
    as (pre & p & post & p' & -> & -> & Ep).
  rewrite !workload_app. unfold workload at 2 4.
  cbn [List.map List.list_sum List.fold_right].
  rewrite (tstep_work _ _ _ _ _ _ Ep). lia.
Qed.

Lemma find_critical (ts : list pc) :
  holders ts <> 0%nat ->
  exists pre p post, ts = (pre ++ p :: post)%list /\ critical p = true.
Proof.
  induction ts as [| q ts IH]; [now intros [] |].
  rewrite holders_cons. destruct (critical q) eqn:Eq.
  - intros _. now exists [], q, ts.
  - intros Hn. destruct (IH Hn) as (pre & p & post & -> & Ep).
    now exists (q :: pre), p, post.
Qed.

Lemma find_unreturned (ts : list pc) :
  forallb returned ts = false ->
  exists pre p post, ts = (pre ++ p :: post)%list /\ returned p = false.
Proof.
  induction ts as [| q ts IH]; [discriminate |].
  cbn [forallb]. destruct (returned q) eqn:Eq.
  - intros Hn. destruct (IH Hn) as (pre & p & post & -> & Ep).
    now exists (q :: pre), p, post.
  - intros _. now exists [], q, ts.
Qed.

(** No deadlock: while a call has not returned, some goroutine can
    move. *)
Lemma progress (st : state) :
  invariant enc snk0 calls st -> finished st = false -> exists st', step enc st st'.
Proof.
  intros [Hm _] F. unfold finished in F.
  assert (moves : forall pre p post snk' m' p',
             threads st = (pre ++ p :: post)%list ->
             tstep enc (sink st) (mux st) p = Some (snk', m', p') ->
             exists st', step enc st st').
  { intros pre p post snk' m' p' Ets Ep.
    exists (mkState snk' m' (pre ++ p' :: post)), (List.length pre).
    unfold stepAt. now rewrite Ets, (stepThread_at pre post p p' _ _ _ _ Ep). }
  destruct (Mutex.locked (mux st)) eqn:El.
  - destruct (find_critical (threads st)) as (pre & p & post & Ets & Ep);
      [rewrite Hm; discriminate |].
    destruct p as [c | c | [| b rest] ret | ret | ret]; try discriminate Ep.
    + destruct (payload enc c) as [out ret] eqn:Ec.
      eapply (moves pre (Locked c) post); [exact Ets |].
      cbn [tstep]. rewrite Ec. reflexivity.
    + eapply (moves pre (Writing EmptyString ret) post); [exact Ets | reflexivity].
    + eapply (moves pre (Writing (String b rest) ret) post);
        [exact Ets | reflexivity].
    + eapply (moves pre (AtUnlock ret) post); [exact Ets | reflexivity].
  - destruct (find_unreturned (threads st) F) as (pre & p & post & Ets & Ep).
    rewrite Ets, holders_app, holders_cons in Hm.
    destruct p as [c | c | rest ret | ret | ret]; cbn [critical] in Hm;
      try lia; try discriminate Ep.
    eapply (moves pre (AtLock c) post); [exact Ets |].
    cbn [tstep]. unfold Mutex.Lock. rewrite El. reflexivity.
Qed.

(** Every run can be carried on until all calls have returned. *)
Lemma completion (n : nat) (st : state) :
  invariant enc snk0 calls st -> workload enc (threads st) = n ->
  exists st', exec enc st st' /\ finished st' = true.
Proof.
  revert st. induction n as [| n IH]; intros st I Hw;
    destruct (finished st) eqn:F;
    try (exists st; split; [constructor | exact F]).
  - destruct (progress st I F) as [st1 S1].
    rewrite (step_workload _ _ S1) in Hw. discriminate Hw.
  - destruct (progress st I F) as [st1 S1].
    rewrite (step_workload _ _ S1) in Hw. injection Hw as Hw.
    destruct (IH st1 (invariant_step _ _ I S1) Hw) as (st' & E' & F').
    exists st'. split; [econstructor; eassumption | exact F'].
Qed.

End Preservation.

End Linearization.



(** * Further properties of the code *)

(** ** Decoding and encoding again *)

(** X1. When [UnmarshalText] of an Alignment or a Markup accepts a text,
    the value it stores is a variant, and [MarshalText] of that value
    gives the text folded to lower case; when it refuses the text, the
    folded text is no name of a variant. *)
Theorem decode_then_encode (u : string -> string) :
  (forall (a v : Alignment) (s : string),
     Alignment_UnmarshalText u a s = (v, None) ->
     isAlignment v = true /\
     Alignment_MarshalText v = (Some (Strings.ToLower u s), None)) /\
  (forall (a v : Alignment) (s : string) (e : error),
     Alignment_UnmarshalText u a s = (v, Some e) ->
     Strings.ToLower u s <> "left" /\ Strings.ToLower u s <> "center" /\
     Strings.ToLower u s <> "right") /\
  (forall (m v : Markup) (s : string),
     Markup_UnmarshalText u m s = (v, None) ->
     isMarkup v = true /\
     Markup_MarshalText v = (Some (Strings.ToLower u s), None)) /\
  (forall (m v : Markup) (s : string) (e : error),
     Markup_UnmarshalText u m s = (v, Some e) ->
     Strings.ToLower u s <> "none" /\ Strings.ToLower u s <> "pango").
Proof.
  split; [| split; [| split]].
  - intros a v s. unfold Alignment_UnmarshalText. cbv zeta.
    destruct (String.eqb_spec (Strings.ToLower u s) "left") as [-> | _];
      [intros E; injection E as <-; now split |].
    destruct (String.eqb_spec (Strings.ToLower u s) "center") as [-> | _];
      [intros E; injection E as <-; now split |].
    destruct (String.eqb_spec (Strings.ToLower u s) "right") as [-> | _];
      [intros E; injection E as <-; now split |].
    discriminate.
  - intros a v s e. unfold Alignment_UnmarshalText. cbv zeta.
    destruct (String.eqb_spec (Strings.ToLower u s) "left"); [discriminate |].
    destruct (String.eqb_spec (Strings.ToLower u s) "center"); [discriminate |].
    destruct (String.eqb_spec (Strings.ToLower u s) "right"); [discriminate |].
    now repeat split.
  - intros m v s. unfold Markup_UnmarshalText. cbv zeta.
    destruct (String.eqb_spec (Strings.ToLower u s) "none") as [-> | _];
      [intros E; injection E as <-; now split |].
    destruct (String.eqb_spec (Strings.ToLower u s) "pango") as [-> | _];
      [intros E; injection E as <-; now split |].
    discriminate.
  - intros m v s e. unfold Markup_UnmarshalText. cbv zeta.
    destruct (String.eqb_spec (Strings.ToLower u s) "none"); [discriminate |].
    destruct (String.eqb_spec (Strings.ToLower u s) "pango"); [discriminate |].
    now split.
Qed.

Lemma decode_then_encode_witness :
  Alignment_MarshalText Right = (Some "right", None) /\
  Markup_MarshalText Pango = (Some "pango", None).
Proof.
  destruct (decode_then_encode (fun s => s)) as (A & _ & M & _). split.
  - exact (proj2 (A Left Right "RiGhT" eq_refl)).
  - exact (proj2 (M NoMarkup Pango "PANGO" eq_refl)).
Defined.

(** ** The header object *)

(** X2. The header always encodes: to an object that begins with
    "version", also when the version is zero, followed by "stop_signal",
    "cont_signal" and "click_events" in this order, each one present
    exactly when its field is not zero. *)
Theorem header_object (h : Header) :
  marshal_Header h
  = inl (JObject
           (("version", JInt (Version h))
              :: (if StopSignal h =? 0 then []
                  else [("stop_signal", JInt (StopSignal h))])
              ++ (if ContSignal h =? 0 then []
                  else [("cont_signal", JInt (ContSignal h))])
              ++ (if ClickEvents h then [("click_events", JBool true)] else []))%list).
Proof.
  destruct h as [v s c k]. unfold marshal_Header, encodeStruct, Header_fields.
  unfold intField, boolField.
  cbn [structEncoder omitEmpty isEmptyValue encoded name andb
       Version StopSignal ContSignal ClickEvents].
  destruct (s =? 0), (c =? 0), k; reflexivity.
Qed.

(** ** The keys of a block, in general *)

Section BlockKeys.

(** When no field fails, the struct encoder writes the keys of the
    fields it does not skip, in their order. *)
Lemma structEncoder_keys (fs : list field) :
  List.Forall (fun f => exists j, encoded f = inl j) fs ->
  exists l,
    structEncoder fs = inl l /\
    List.map fst l
    = List.map name
        (List.filter (fun f => negb (omitEmpty f && isEmptyValue f)) fs).
Proof.
  induction 1 as [| f fs [j Ej] _ (l & El & Ek)]; [now exists [] |].
  cbn [structEncoder List.filter].
  destruct (omitEmpty f && isEmptyValue f); cbn [negb].
  - now exists l.
  - rewrite Ej, El. exists ((name f, j) :: l). cbn [List.map fst]. now rewrite Ek.
Qed.

Lemma empty_length (s : string) :
  Nat.eqb (String.length s) 0 = String.eqb s EmptyString.
Proof. now destruct s. Qed.

(** Field by field, what the struct tags of [Block] say is what
    [declared], [keyOf] and [present] say. *)
Lemma Block_fields_declared (b : Block) :
  List.Forall2
    (fun f d => name f = keyOf d /\
                negb (omitEmpty f && isEmptyValue f) = present b d)
    (Block_fields b) declared.
Proof.
  unfold Block_fields, declared, stringField, intField, boolField,
    alignField, markupField.
  repeat constructor;
    cbn [name omitEmpty isEmptyValue andb negb present isZero];
    rewrite ?empty_length; reflexivity.
Qed.

Lemma keys_related (b : Block) (fs : list field) (ds : list (option optional)) :
  List.Forall2
    (fun f d => name f = keyOf d /\
                negb (omitEmpty f && isEmptyValue f) = present b d) fs ds ->
  List.map name (List.filter (fun f => negb (omitEmpty f && isEmptyValue f)) fs)
  = List.map keyOf (List.filter (present b) ds).
Proof.
  induction 1 as [| f d fs ds [En Ep] _ IH]; [reflexivity |].
  cbn [List.filter]. rewrite Ep.
  destruct (present b d); cbn [List.map]; now rewrite ?En, IH.
Qed.

Lemma Block_fields_encode (b : Block) :
  isAlignment (Block.Align b) = true -> isMarkup (Block.Markup b) = true ->
  List.Forall (fun f => exists j, encoded f = inl j) (Block_fields b).
Proof.
  intros Ha Hm. unfold Block_fields.
  destruct (alignField_ok _ Ha) as [ja Eja].
  assert (Em : exists j, encoded (markupField (Block.Markup b)) = inl j)
    by (destruct (isMarkup_cases _ Hm) as [-> | ->]; eexists; reflexivity).
  repeat constructor; try (eexists; reflexivity); eauto.
Qed.

End BlockKeys.

(** X3. A block whose alignment and markup are variants always encodes,
    and the keys of its object are, in the order in which the struct
    declares them, "full_text" and the keys of the fields that are not
    zero: "name" and "instance" come before "full_text", the others
    after. *)
Theorem block_keys_in_order (b : Block) :
  isAlignment (Block.Align b) = true -> isMarkup (Block.Markup b) = true ->
  exists fields,
    marshal_Block b = inl (JObject fields) /\
    List.map fst fields = keysOf b.
Proof.
  intros Ha Hm.
  destruct (structEncoder_keys _ (Block_fields_encode b Ha Hm)) as (l & El & Ek).
  exists l. unfold marshal_Block, encodeStruct. rewrite El. split; [reflexivity |].
  rewrite Ek. apply keys_related, Block_fields_declared.
Qed.

Lemma block_keys_in_order_witness :
  exists fields,
    marshal_Block richBlock = inl (JObject fields) /\
    List.map fst fields
    = ["name"; "full_text"; "short_text"; "color"; "align"; "separator";
       "separator_block_width"; "markup"].
Proof. exact (block_keys_in_order richBlock eq_refl eq_refl). Defined.

(** ** Status lines *)

Section LineFacts.

Lemma arrayEncoder_all (items : list (json + error)) (js : list json) :
  List.Forall2 (fun x j => x = inl j) items js -> arrayEncoder items = inl js.
Proof.
  induction 1 as [| x j items js -> _ IH]; [reflexivity |].
  cbn [arrayEncoder]. now rewrite IH.
Qed.

Lemma arrayEncoder_first_error (pre post : list (json + error)) (e : error) :
  List.Forall (fun x => exists j, x = inl j) pre ->
  arrayEncoder (pre ++ inr e :: post) = inr e.
Proof.
  induction 1 as [| x pre [j ->] _ IH]; [reflexivity |].
  cbn [List.app arrayEncoder]. now rewrite IH.
Qed.

End LineFacts.

(** X4. A status line whose blocks all encode is the array of their
    objects in the order of the slice, a nil pointer giving [null]; when
    a block fails, the line fails with the error of the first block that
    does. *)
Theorem line_is_array_of_blocks (l : list (option Block)) :
  (forall js,
     List.Forall2 (fun p j => marshal_BlockPtr p = inl j) l js ->
     marshal_StatusLine (Some l) = inl (JArray js)) /\
  (forall pre p post e,
     l = (pre ++ p :: post)%list ->
     List.Forall (fun q => exists j, marshal_BlockPtr q = inl j) pre ->
     marshal_BlockPtr p = inr e ->
     marshal_StatusLine (Some l) = inr e).
Proof.
  split.
  - intros js F. unfold marshal_StatusLine.
    rewrite (arrayEncoder_all (List.map marshal_BlockPtr l) js); [reflexivity |].
    induction F; cbn [List.map]; constructor; assumption.
  - intros pre p post e -> F Ep. unfold marshal_StatusLine.
    rewrite List.map_app. cbn [List.map]. rewrite Ep.
    rewrite arrayEncoder_first_error; [reflexivity |].
    induction F; cbn [List.map]; constructor; assumption.
Qed.

Lemma line_is_array_of_blocks_witness :
  marshal_StatusLine (Some [Some (textBlock "a"); None])
  = inl (JArray [JObject [("full_text", JString "a")]; JNull]) /\
  marshal_StatusLine badLine
  = inr (MarshalerError "i3bar.Alignment" (Errorf "unknown alignment: 3")
           "MarshalText").
Proof.
  split.
  - apply (proj1 (line_is_array_of_blocks [Some (textBlock "a"); None])).
    repeat constructor.
  - apply (proj2 (line_is_array_of_blocks
                    [Some (textBlock "ok"); Some oddBlock; Some urgentBlock])
                 [Some (textBlock "ok")] (Some oddBlock) [Some urgentBlock]).
    + reflexivity.
    + repeat constructor. eexists. reflexivity.
    + reflexivity.
Defined.

(** ** Calls that write nothing *)

Section QuietCalls.

Context {W R : Type} `{Writer W}.

(** An idle stream is the stream with its mutex unlocked. *)
Lemma idle_eta (s : Stream W R) :
  idle s ->
  Stream.mk (Stream.w s) (Stream.e s) Mutex.unlocked (Stream.r s) (Stream.d s) = s.
Proof.
  destruct s as [w e [l] r d]. unfold idle. cbn. now intros ->.
Qed.

Lemma SendLine_unencodable (s : Stream W R) (b : StatusLine) (e : error) :
  idle s -> Encoder.err (Stream.e s) = None -> marshal_StatusLine b = inr e ->
  SendLine s b
  = Some (s, Some (Wrap e "Failed to encode status line into json stream")).
Proof.
  intros Hs He Eb. pose proof (idle_eta s Hs) as Eta.
  unfold idle in Hs. unfold SendLine, Mutex.Lock, Encoder.Encode.
  rewrite Hs, Eb, He. unfold Mutex.Unlock. fold Mutex.unlocked. now rewrite Eta.
Qed.

Lemma SendLine_after_error (s : Stream W R) (b : StatusLine) (e : error) :
  idle s -> Encoder.err (Stream.e s) = Some e ->
  SendLine s b
  = Some (s, Some (Wrap e "Failed to encode status line into json stream")).
Proof.
  intros Hs He. pose proof (idle_eta s Hs) as Eta.
  unfold idle in Hs. unfold SendLine, Mutex.Lock, Encoder.Encode.
  rewrite Hs, He. unfold Mutex.Unlock. fold Mutex.unlocked. now rewrite Eta.
Qed.

End QuietCalls.

(** X5. [SendLine] of a line that does not encode, on a stream whose
    encoder has met no write error, returns the encoding error wrapped
    and leaves the stream, its sink included, exactly as it was: nothing
    of the line, no part of its earlier blocks either, is written. *)
Theorem unencodable_line_writes_nothing {W R : Type} `{Writer W}
        (s : Stream W R) (b : StatusLine) (e : error) :
  idle s -> Encoder.err (Stream.e s) = None -> marshal_StatusLine b = inr e ->
  SendLine s b
  = Some (s, Some (Wrap e "Failed to encode status line into json stream")).
Proof. apply SendLine_unencodable. Qed.

Lemma unencodable_line_writes_nothing_witness :
  let s := Stream.mk (mkRecorder ("[" : Buffer) ["["]) Encoder.NewEncoder
                     Mutex.unlocked tt (Decoder.NewDecoder tt) in
  SendLine s badLine
  = Some (s, Some (Wrap (MarshalerError "i3bar.Alignment"
                           (Errorf "unknown alignment: 3") "MarshalText")
                        "Failed to encode status line into json stream")).
Proof.
  intros s.
  exact (unencodable_line_writes_nothing s badLine _ eq_refl eq_refl eq_refl).
Defined.

(** X6. Once a write of [SendLine] has failed, the encoder keeps the
    error: every later [SendLine], whatever its line, returns that same
    error wrapped and leaves the stream and its sink untouched. [Close]
    is not held back by it and still makes its write. *)
Theorem write_error_is_kept {W R : Type} `{Writer W}
        (s : Stream W R) (b : StatusLine) (j : json) (w1 : W) (n : Z) (e0 : error) :
  idle s -> Encoder.err (Stream.e s) = None ->
  marshal_StatusLine b = inl j ->
  Write (Stream.w s) (Encoder.bytesOf (Stream.e s) j) = (w1, (n, Some e0)) ->
  exists s1,
    SendLine s b
    = Some (s1, Some (Wrap e0 "Failed to encode status line into json stream")) /\
    Stream.w s1 = w1 /\
    (forall lines,
       SendLines s1 lines
       = Some (s1, List.map
                     (fun _ => Some (Wrap e0 "Failed to encode status line into json stream"))
                     lines)) /\
    exists s2 err, Close s1 = Some (s2, err) /\
                   Stream.w s2 = fst (Write w1 "]").
Proof.
  intros Hs He Ej Ew. unfold idle in Hs.
  eexists. split; [| split; [| split]].
  - unfold SendLine, Mutex.Lock. rewrite Hs, Ej.
    rewrite (Encode_value _ _ _ He), Ew. reflexivity.
  - reflexivity.
  - intros lines. induction lines as [| b' rest IH]; [reflexivity |].
    cbn [SendLines List.map].
    rewrite SendLine_after_error with (e := e0); [| reflexivity | reflexivity].
    now rewrite IH.
  - rewrite Close_idle by reflexivity. cbn [Stream.w].
    destruct (Write w1 "]") as [w' [n' err]]. eexists. eexists.
    split; reflexivity.
Qed.

Lemma write_error_is_kept_witness :
  exists s1 : Stream (Recorder Scripted) unit,
    calls (Stream.w s1)
    = [Encoder.bytesOf Encoder.NewEncoder
         (JArray [JObject [("full_text", JString "CPU 10%")]])] /\
    SendLines s1 [memLine; badLine; None]
    = Some (s1,
            List.map
              (fun _ => Some (Wrap brokenPipe
                                   "Failed to encode status line into json stream"))
              [memLine; badLine; None]).
Proof.
  destruct (write_error_is_kept
              (Stream.mk (failsAt 0) Encoder.NewEncoder Mutex.unlocked tt
                         (Decoder.NewDecoder tt))
              cpuLine (JArray [JObject [("full_text", JString "CPU 10%")]])
              (mkRecorder (mkScripted EmptyString [])
                 [Encoder.bytesOf Encoder.NewEncoder
                    (JArray [JObject [("full_text", JString "CPU 10%")]])])
              0 brokenPipe eq_refl eq_refl eq_refl eq_refl)
    as (s1 & _ & Ew & Hl & _).
  exists s1. split; [now rewrite Ew | apply Hl].
Defined.

(** ** The mutex *)

(** X7. Every return of [SendLine] and of [Close] leaves the mutex
    unlocked, whether the call failed or not, so on a stream that
    nobody holds both calls return; while the mutex is held neither
    call returns nor touches the stream. *)
Theorem mutex_released {W R : Type} `{Writer W} (s : Stream W R) :
  (idle s ->
   (forall b, exists s' err, SendLine s b = Some (s', err) /\ idle s') /\
   (exists s' err, Close s = Some (s', err) /\ idle s')) /\
  (Mutex.locked (Stream.wMux s) = true ->
   (forall b, SendLine s b = None) /\ Close s = None).
Proof.
  split.
  - intros Hs. split.
    + intros b. destruct (SendLine_idle s b Hs) as (s' & err & E & Hs' & _).
      now exists s', err.
    + rewrite (Close_idle s Hs).
      destruct (Write (Stream.w s) "]") as [w' [n err]].
      eexists. eexists. split; reflexivity.
  - intros Hl. unfold SendLine, Close, Mutex.Lock. rewrite Hl. now split.
Qed.

Lemma mutex_released_witness :
  let s := Stream.mk (failsAt 0) Encoder.NewEncoder Mutex.unlocked tt
                     (Decoder.NewDecoder tt) in
  (exists s' err, SendLine s cpuLine = Some (s', err) /\ idle s') /\
  (exists s' err, Close s = Some (s', err) /\ idle s') /\
  SendLine (Stream.mk (failsAt 0) Encoder.NewEncoder (Mutex.mk true) tt
                      (Decoder.NewDecoder tt)) cpuLine = None.
Proof.
  intros s. split; [| split].
  - exact (proj1 (proj1 (mutex_released s) eq_refl) cpuLine).
  - exact (proj2 (proj1 (mutex_released s) eq_refl)).
  - exact (proj1 (proj2 (mutex_released
                           (Stream.mk (failsAt 0) Encoder.NewEncoder (Mutex.mk true)
                                      tt (Decoder.NewDecoder tt))) eq_refl)
                 cpuLine).
Defined.

(** ** After Close *)

(** X8. The stream keeps no record of having been closed. On a buffer,
    [Close] followed by [SendLine] followed by [Close] all succeed, and
    the line and a second bracket land behind the first closing
    bracket. *)
Theorem calls_after_close_are_written {R : Type}
        (s : Stream Buffer R) (b : StatusLine) (j : json) :
  idle s -> Encoder.err (Stream.e s) = None -> marshal_StatusLine b = inl j ->
  exists s1 s2 s3,
    Close s = Some (s1, None) /\
    SendLine s1 b = Some (s2, None) /\
    Close s2 = Some (s3, None) /\
    Stream.w s3 = Stream.w s ++ "]" ++ Encoder.bytesOf (Stream.e s) j ++ "]".
Proof.
  intros Hs He Ej.
  set (s1 := Stream.mk (Stream.w s ++ "]") (Stream.e s) Mutex.unlocked
                       (Stream.r s) (Stream.d s)).
  set (s2 := Stream.mk (Stream.w s1 ++ Encoder.bytesOf (Stream.e s1) j)
                       (Stream.e s1) Mutex.unlocked (Stream.r s1) (Stream.d s1)).
  set (s3 := Stream.mk (Stream.w s2 ++ "]") (Stream.e s2) Mutex.unlocked
                       (Stream.r s2) (Stream.d s2)).
  assert (H1 : idle s1) by reflexivity.
  assert (H2 : idle s2) by reflexivity.
  exists s1, s2, s3. split; [| split; [| split]].
  - now rewrite (Close_idle s Hs).
  - now rewrite (SendLine_Buffer s1 b j H1 He Ej).
  - now rewrite (Close_idle s2 H2).
  - cbn [s3 s2 s1 Stream.w Stream.e]. now rewrite !BytesFacts.app_assoc.
Qed.

Lemma calls_after_close_are_written_witness :
  exists s1 s2 s3 : Stream Buffer unit,
    Close (Stream.mk ("[" : Buffer) Encoder.NewEncoder Mutex.unlocked tt
                     (Decoder.NewDecoder tt)) = Some (s1, None) /\
    SendLine s1 cpuLine = Some (s2, None) /\
    Close s2 = Some (s3, None) /\
    Stream.w s3 = "[]" ++ specCpuElement ++ newlineByte ++ "]".
Proof.
  exact (calls_after_close_are_written
           (Stream.mk ("[" : Buffer) Encoder.NewEncoder Mutex.unlocked tt
                      (Decoder.NewDecoder tt))
           cpuLine (JArray [JObject [("full_text", JString "CPU 10%")]])
           eq_refl eq_refl eq_refl).
Defined.

(** ** What NewStream returns *)

(** X9. [NewStream] returns either a stream and no error or no stream
    and an error, never both and never neither. The error is always the
    error of one of its two writes, wrapped: the header itself never
    fails to encode. The stream it returns is unlocked, its encoder has
    met no error, and it holds the reader as given, unread. *)
Theorem NewStream_result {W R : Type} `{Writer W}
        (w w' : W) (r : R) (pretty : bool) (h : Header)
        (so : option (Stream W R)) (err : option error) :
  NewStream w r pretty h = (w', (so, err)) ->
  match so, err with
  | Some s, None =>
      s = Stream.mk w' (encoderOf pretty) Mutex.unlocked r (Decoder.NewDecoder r) /\
      exists w1 n n',
        Write w (headerBytes pretty h) = (w1, (n, None)) /\
        Write w1 "[" = (w', (n', None))
  | None, Some e =>
      (exists n cause,
         Write w (headerBytes pretty h) = (w', (n, Some cause)) /\
         e = Wrap cause "Failed to send header") \/
      (exists w1 n n' cause,
         Write w (headerBytes pretty h) = (w1, (n, None)) /\
         Write w1 "[" = (w', (n', Some cause)) /\
         e = Wrap cause "Failed to start infinite json array")
  | _, _ => False
  end.
Proof.
  rewrite NewStream_writes.
  destruct (Write w (headerBytes pretty h)) as [w1 [n1 [e1 |]]] eqn:E1.
  - intros E. injection E as <- <- <-. left. now exists n1, e1.
  - destruct (Write w1 "[") as [w2 [n2 [e2 |]]] eqn:E2.
    + intros E. injection E as <- <- <-. right. now exists w1, n1, n2, e2.
    + intros E. injection E as <- <- <-. split; [reflexivity |].
      now exists w1, n1, n2.
Qed.

Lemma NewStream_result_witness :
  (exists n cause,
     Write (failsAt 0) (headerBytes true header1)
     = (mkRecorder (mkScripted EmptyString []) [headerBytes true header1],
        (n, Some cause)) /\
     Wrap brokenPipe "Failed to send header" = Wrap cause "Failed to send header") \/
  (exists w1 n n' cause,
     Write (failsAt 0) (headerBytes true header1) = (w1, (n, None)) /\
     Write w1 "["
     = (mkRecorder (mkScripted EmptyString []) [headerBytes true header1],
        (n', Some cause)) /\
     Wrap brokenPipe "Failed to send header"
     = Wrap cause "Failed to start infinite json array").
Proof.
  exact (NewStream_result (R := unit) (failsAt 0)
           (mkRecorder (mkScripted EmptyString []) [headerBytes true header1])
           tt true header1 None (Some (Wrap brokenPipe "Failed to send header"))
           eq_refl).
Defined.

(** ** Any lines on a buffer *)

Section AnyLines.

Context {R : Type}.

Lemma SendLine_Buffer_any (s : Stream Buffer R) (b : StatusLine) :
  idle s -> Encoder.err (Stream.e s) = None ->
  SendLine s b
  = Some (Stream.mk (Stream.w s ++ lineBytes (Stream.e s) b) (Stream.e s)
                    Mutex.unlocked (Stream.r s) (Stream.d s),
          lineError b).
Proof.
  intros Hs He. unfold lineBytes, lineError.
  destruct (marshal_StatusLine b) as [j | e] eqn:Eb.
  - now rewrite (SendLine_Buffer s b j Hs He Eb).
  - rewrite (SendLine_unencodable s b e Hs He Eb). cbv beta iota.
    rewrite BytesFacts.app_nil_r. do 2 f_equal. symmetry. exact (idle_eta s Hs).
Qed.

Lemma SendLines_Buffer_any (lines : list StatusLine) (s : Stream Buffer R) :
  idle s -> Encoder.err (Stream.e s) = None ->
  SendLines s lines
  = Some (Stream.mk
            (Stream.w s
               ++ String.concat EmptyString
                    (List.map (lineBytes (Stream.e s)) lines))
            (Stream.e s) Mutex.unlocked (Stream.r s) (Stream.d s),
          List.map lineError lines).
Proof.
  revert s. induction lines as [| b rest IH]; intros s Hs He.
  - cbn [SendLines List.map String.concat].
    rewrite BytesFacts.app_nil_r. do 2 f_equal. symmetry. exact (idle_eta s Hs).
  - cbn [SendLines]. rewrite (SendLine_Buffer_any s b Hs He).
    rewrite IH by (try reflexivity; exact He).
    cbn [Stream.w Stream.e Stream.r Stream.d List.map].
    now rewrite ConcurrentFacts.concat_cons, BytesFacts.app_assoc.
Qed.

End AnyLines.

(** X10. A nil status line is not refused: on a buffer [SendLine]
    writes it as [null] and a newline, compact or indented, and returns
    no error; an empty line that is not nil is written as [[]] and a
    newline. *)
Theorem nil_and_empty_lines {R : Type} (pretty : bool) (s : Stream Buffer R) :
  idle s -> Stream.e s = encoderOf pretty ->
  SendLine s None
  = Some (Stream.mk (Stream.w s ++ "null" ++ newlineByte) (Stream.e s)
                    Mutex.unlocked (Stream.r s) (Stream.d s), None) /\
  SendLine s (Some [])
  = Some (Stream.mk (Stream.w s ++ "[]" ++ newlineByte) (Stream.e s)
                    Mutex.unlocked (Stream.r s) (Stream.d s), None).
Proof.
  intros Hs He.
  assert (Herr : Encoder.err (Stream.e s) = None)
    by (rewrite He; apply encoderOf_err).
  rewrite !(SendLine_Buffer_any s _ Hs Herr). unfold lineBytes, lineError.
  cbn [marshal_StatusLine List.map arrayEncoder]. rewrite He.
  destruct pretty; split; reflexivity.
Qed.

Lemma nil_and_empty_lines_witness :
  SendLine (Stream.mk ("[" : Buffer) (encoderOf true) Mutex.unlocked tt
                      (Decoder.NewDecoder tt)) None
  = Some (Stream.mk ("[null" ++ newlineByte) (encoderOf true) Mutex.unlocked tt
                    (Decoder.NewDecoder tt), None).
Proof.
  exact (proj1 (nil_and_empty_lines true
                  (Stream.mk ("[" : Buffer) (encoderOf true) Mutex.unlocked tt
                             (Decoder.NewDecoder tt)) eq_refl eq_refl)).
Defined.

(** X11. A whole life of a stream on a buffer, for any header and any
    lines: construction succeeds, every call returns, [Close] succeeds,
    and the buffer then holds what it held before, the header with its
    newline, the opening bracket, for each line in turn its value with
    its newline, or nothing when the line does not encode, and the
    closing bracket. A line that does not encode gets its error back and
    does not disturb the lines after it. *)
Theorem stream_on_a_buffer {R : Type}
        (w0 : Buffer) (r : R) (pretty : bool) (h : Header) (lines : list StatusLine) :
  exists s0 s1 s2 : Stream Buffer R,
    NewStream w0 r pretty h = (Stream.w s0, (Some s0, None)) /\
    SendLines s0 lines = Some (s1, List.map lineError lines) /\
    Close s1 = Some (s2, None) /\
    Stream.w s2
    = w0 ++ headerBytes pretty h ++ "["
         ++ String.concat EmptyString
              (List.map (lineBytes (encoderOf pretty)) lines)
         ++ "]".
Proof.
  set (s0 := Stream.mk ((w0 ++ headerBytes pretty h) ++ "[") (encoderOf pretty)
                       Mutex.unlocked r (Decoder.NewDecoder r)).
  assert (H0 : idle s0) by reflexivity.
  assert (E0 : Encoder.err (Stream.e s0) = None) by apply encoderOf_err.
  set (s1 := Stream.mk
               (Stream.w s0
                  ++ String.concat EmptyString
                       (List.map (lineBytes (Stream.e s0)) lines))
               (Stream.e s0) Mutex.unlocked (Stream.r s0) (Stream.d s0)).
  assert (H1 : idle s1) by reflexivity.
  set (s2 := Stream.mk (Stream.w s1 ++ "]") (Stream.e s1) Mutex.unlocked
                       (Stream.r s1) (Stream.d s1)).
  exists s0, s1, s2. split; [| split; [| split]].
  - now rewrite NewStream_writes.
  - exact (SendLines_Buffer_any lines s0 H0 E0).
  - now rewrite (Close_idle s1 H1).
  - cbn [s2 s1 s0 Stream.w Stream.e]. now rewrite !BytesFacts.app_assoc.
Qed.

(** ** What concurrent calls return *)

Module Returns.

Import Concurrent ConcurrentFacts.

Section Follow.

Variable enc : Encoder.t.

Lemma tstep_follows (c : call) (snk snk' : string) (m m' : Mutex.t) (p p' : pc) :
  follows enc c p -> tstep enc snk m p = Some (snk', m', p') -> follows enc c p'.
Proof.
  destruct p as [c' | c' | [| b rest] ret | ret | ret]; cbn [follows tstep];
    intros F E.
  - destruct (Mutex.Lock m); [| discriminate E]. now injection E as _ _ <-.
  - destruct (payload enc c') as [out ret] eqn:Ec. injection E as _ _ <-.
    cbn [follows]. subst c'. now rewrite Ec.
  - now injection E as _ _ <-.
  - now injection E as _ _ <-.
  - now injection E as _ _ <-.
  - discriminate E.
Qed.

Lemma follows_start (calls : list call) :
  List.Forall2 (follows enc) calls (List.map AtLock calls).
Proof. induction calls; cbn [List.map]; constructor; [reflexivity | assumption]. Qed.

Lemma follows_step (calls : list call) (st st' : state) :
  List.Forall2 (follows enc) calls (threads st) -> step enc st st' ->
  List.Forall2 (follows enc) calls (threads st').
Proof.
  intros F [i Ei]. unfold stepAt in Ei.
  destruct (stepThread enc i (sink st) (mux st) (threads st))
    as [[[snk' m'] ts'] |] eqn:Et; [| discriminate Ei].
  injection Ei as <-. cbn [threads].
  destruct (stepThread_inv enc _ _ _ _ _ _ _ Et)
    as (pre & p & post & p' & Ets & -> & Ep).
  rewrite Ets in F.
  apply List.Forall2_app_inv_r in F as (cpre & crest & Fpre & Frest & ->).
  inversion Frest as [| c q cpost qs Fc Fpost]; subst.
  apply List.Forall2_app; [assumption |].
  constructor; [| assumption]. eapply tstep_follows; eassumption.
Qed.

Lemma follows_exec (calls : list call) (st st' : state) :
  exec enc st st' ->
  List.Forall2 (follows enc) calls (threads st) ->
  List.Forall2 (follows enc) calls (threads st').
Proof.
  induction 1 as [| st1 st2 st3 S1 _ IH]; [trivial |].
  intros F. apply IH. eapply follows_step; eassumption.
Qed.

Lemma follows_finished (calls : list call) (ts : list pc) :
  List.Forall2 (follows enc) calls ts -> forallb returned ts = true ->
  ts = List.map (fun c => Returned (snd (payload enc c))) calls.
Proof.
  induction 1 as [| c p calls ts Fc _ IH]; [reflexivity |].
  cbn [forallb List.map]. intros E. apply andb_true_iff in E as [Ep Ets].
  destruct p; try discriminate Ep. cbn [follows] in Fc. subst ret.
  now rewrite (IH Ets).
Qed.

(** Alone or among others, a call returns the same error. *)
Lemma payload_error (b : StatusLine) :
  Encoder.err enc = None -> snd (payload enc (CallSendLine b)) = lineError b.
Proof.
  intros He. unfold payload, lineError.
  destruct (marshal_StatusLine b) as [j | e].
  - now rewrite (Encode_value (W := Buffer) _ _ _ He).
  - unfold Encoder.Encode. now rewrite He.
Qed.

End Follow.

End Returns.



(** ** What compact values never hold *)

Module PlainFacts.

Import Json.

Lemma plain_app (a b : string) : plain (a ++ b) = plain a && plain b.
Proof.
  unfold plain. induction a as [| c a IH]; [reflexivity |].
  cbn [append Bytes.all]. now rewrite IH, andb_assoc.
Qed.

Lemma plain_uint (d : Decimal.uint) : plain (NilEmpty.string_of_uint d) = true.
Proof. induction d; cbn [NilEmpty.string_of_uint]; trivial. Qed.

Lemma plain_uint0 (d : Decimal.uint) : plain (NilZero.string_of_uint d) = true.
Proof.
  destruct d; try reflexivity;
    cbv beta iota delta [NilZero.string_of_uint]; apply plain_uint.
Qed.

Lemma plain_itoa (n : Z) : plain (Bytes.itoa n) = true.
Proof.
  unfold Bytes.itoa, NilZero.string_of_int.
  destruct (Z.to_int n) as [d | d]; [apply plain_uint0 |].
  change (plain (NilZero.string_of_uint d) = true). apply plain_uint0.
Qed.

(** Whatever the byte, what stands for it in a string is plain. *)
Lemma plain_escapeByte (c : ascii) : plain (escapeByte true c) = true.
Proof. destruct c as [[] [] [] [] [] [] [] []]; reflexivity. Qed.

(** The four bytes are ASCII. *)
Lemma plain_high (c : ascii) : 0x80 <= byteZ c -> plainByte c = true.
Proof.
  destruct c as [[] [] [] [] [] [] [] []]; vm_compute; intros E;
    first [reflexivity | now elim E].
Qed.

Lemma first_low (s0 : Z) (sz : nat) (lo hi : Z) :
  first s0 = Some (sz, lo, hi) -> 0x80 <= lo.
Proof.
  unfold first.
  repeat match goal with
         | |- context [if ?c then _ else _] => destruct c
         end;
    intros E; try discriminate E; injection E as _ <- _; lia.
Qed.

(** The bytes of a rune of two, three or four bytes, past the first,
    are 0x80 or more. *)
Lemma decode_tail (c0 : ascii) (r0 : string) (c : Z) (size : nat) :
  DecodeRuneInString (String c0 r0) = (c, size) ->
  match size, r0 with
  | 2%nat, String c1 _ => 0x80 <= byteZ c1
  | 3%nat, String c1 (String c2 _) => 0x80 <= byteZ c1 /\ 0x80 <= byteZ c2
  | 4%nat, String c1 (String c2 (String c3 _)) =>
      0x80 <= byteZ c1 /\ 0x80 <= byteZ c2 /\ 0x80 <= byteZ c3
  | _, _ => True
  end.
Proof.
  unfold DecodeRuneInString, continuation.
  destruct (byteZ c0 <? 0x80); [intros E; now injection E as _ <- |].
  destruct (first (byteZ c0)) as [[[sz lo] hi] |] eqn:Ef;
    [| intros E; injection E as _ <-; now destruct r0].
  apply first_low in Ef.
  destruct r0 as [| c1 r1]; [intros E; now injection E as _ <- |].
  destruct (Z.ltb_spec (byteZ c1) lo); cbn [orb];
    [intros E; now injection E as _ <- |].
  destruct (hi <? byteZ c1); [intros E; now injection E as _ <- |].
  destruct (sz <=? 2)%nat; [intros E; injection E as _ <-; lia |].
  destruct r1 as [| c2 r2]; [intros E; now injection E as _ <- |].
  destruct (Z.leb_spec 0x80 (byteZ c2)); cbn [andb negb];
    [| intros E; now injection E as _ <-].
  destruct (byteZ c2 <=? 0xBF); cbn [negb];
    [| intros E; now injection E as _ <-].
  destruct (sz <=? 3)%nat; [intros E; injection E as _ <-; lia |].
  destruct r2 as [| c3 r3]; [intros E; now injection E as _ <- |].
  destruct (Z.leb_spec 0x80 (byteZ c3)); cbn [andb negb];
    [| intros E; now injection E as _ <-].
  destruct (byteZ c3 <=? 0xBF); cbn [negb];
    intros E; injection E as _ <-; [lia | exact I].
Qed.

Lemma plain_escapeString_bounded (n : nat) (s : string) :
  (String.length s <= n)%nat -> plain (escapeString true s) = true.
Proof.
  revert s. induction n as [| n IH]; intros [| c0 r0] Hn;
    cbn [String.length] in Hn; try reflexivity; try lia.
  cbn [escapeString].
  destruct (Z.ltb_spec (byteZ c0) 0x80) as [_ | Hhigh].
  - rewrite plain_app, plain_escapeByte. apply IH. lia.
  - pose proof (decode_tail c0 r0) as T.
    destruct (DecodeRuneInString (String c0 r0)) as [c size].
    specialize (T c size eq_refl).
    assert (Hbad : forall pre, plain pre = true ->
                     plain (pre ++ escapeString true r0) = true)
      by (intros pre Hp; rewrite plain_app, Hp; apply IH; lia).
    destruct ((c =? RuneError) && (size =? 1)%nat); [(apply Hbad; reflexivity) |].
    destruct size as [| [| [| [| [| k]]]]]; try (apply Hbad; reflexivity).
    + destruct r0 as [| c1 r1]; [(apply Hbad; reflexivity) |].
      rewrite plain_app. cbn [plain Bytes.all str1].
      fold (plain (escapeString true r1)).
      rewrite (plain_high c0 Hhigh), (plain_high c1 T).
      apply IH. cbn [String.length] in Hn. lia.
    + destruct r0 as [| c1 [| c2 r2]]; try (apply Hbad; reflexivity).
      destruct T as [T1 T2]. rewrite plain_app.
      cbn [String.length] in Hn. rewrite (IH r2) by lia. rewrite andb_true_r.
      destruct ((c =? 0x2028) || (c =? 0x2029)) eqn:Els.
      * apply orb_true_iff in Els as [Els | Els]; apply Z.eqb_eq in Els;
          subst c; reflexivity.
      * cbn [plain Bytes.all str1].
        now rewrite (plain_high c0 Hhigh), (plain_high c1 T1),
          (plain_high c2 T2).
    + destruct r0 as [| c1 [| c2 [| c3 r3]]]; try (apply Hbad; reflexivity).
      destruct T as (T1 & T2 & T3). rewrite plain_app.
      cbn [String.length] in Hn. rewrite (IH r3) by lia. rewrite andb_true_r.
      cbn [plain Bytes.all str1].
      now rewrite (plain_high c0 Hhigh), (plain_high c1 T1),
        (plain_high c2 T2), (plain_high c3 T3).
Qed.

Lemma plain_appendString (s : string) : plain (appendString true s) = true.
Proof.
  unfold appendString, Bytes.quoted.
  change (plain (escapeString true s ++ String Bytes.dq EmptyString) = true).
  rewrite plain_app, (plain_escapeString_bounded (String.length s) s (le_n _)).
  reflexivity.
Qed.

Lemma plain_concat (sep : string) (l : list string) :
  plain sep = true -> List.Forall (fun x => plain x = true) l ->
  plain (String.concat sep l) = true.
Proof.
  intros Hsep. induction 1 as [| x l Hx Hl IH]; [reflexivity |].
  cbn [String.concat]. destruct l as [| y l]; [exact Hx |].
  now rewrite !plain_app, Hx, Hsep, IH.
Qed.

(** Induction on a JSON tree, through its arrays and objects. *)
Lemma json_induction (P : json -> Prop) :
  P JNull -> (forall b, P (JBool b)) -> (forall n, P (JInt n)) ->
  (forall s, P (JString s)) ->
  (forall items, List.Forall P items -> P (JArray items)) ->
  (forall fields, List.Forall (fun kv => P (snd kv)) fields -> P (JObject fields)) ->
  forall j, P j.
Proof.
  intros Hnull Hbool Hint Hstr Harr Hobj.
  fix IH 1. intros [| b | n | s | items | fields].
  - exact Hnull.
  - apply Hbool.
  - apply Hint.
  - apply Hstr.
  - apply Harr. induction items as [| x items IHl]; constructor;
      [apply IH | exact IHl].
  - apply Hobj. induction fields as [| [k v] fields IHl]; constructor;
      [apply IH | exact IHl].
Qed.

Lemma plain_render (j : json) : plain (render true j) = true.
Proof.
  induction j as [| b | n | s | items IH | fields IH] using json_induction;
    cbn [render].
  - reflexivity.
  - now destruct b.
  - apply plain_itoa.
  - apply plain_appendString.
  - rewrite !plain_app, plain_concat; [reflexivity | reflexivity |].
    induction IH; cbn [List.map]; constructor; assumption.
  - rewrite !plain_app, plain_concat; [reflexivity | reflexivity |].
    induction IH as [| [k v] fields Hv _ IHl]; cbn [List.map]; constructor;
      [| exact IHl].
    cbn [snd] in Hv. now rewrite !plain_app, plain_appendString, Hv.
Qed.

End PlainFacts.

(** X13. A compact stream writes every value on one line: the bytes of
    a value before its closing newline hold no newline, whatever the
    text fields hold, and no raw [<], [>] or [&] either, which the
    encoder of the stream writes escaped. This holds of the header and
    of every line that encodes. *)
Theorem compact_values_are_one_line :
  (forall j, plain (render true j) = true) /\
  (forall h, exists body,
     headerBytes false h = body ++ newlineByte /\ plain body = true) /\
  (forall b,
     match marshal_StatusLine b with
     | inl j =>
         lineBytes (encoderOf false) b = render true j ++ newlineByte /\
         plain (render true j) = true
     | inr _ => lineBytes (encoderOf false) b = EmptyString
     end).
Proof.
  split; [exact PlainFacts.plain_render | split].
  - intros h. destruct (marshal_Header_ok h) as [j Ej].
    exists (render true j). unfold headerBytes. rewrite Ej.
    split; [reflexivity | apply PlainFacts.plain_render].
  - intros b. unfold lineBytes.
    destruct (marshal_StatusLine b) as [j | e]; [| reflexivity].
    split; [reflexivity | apply PlainFacts.plain_render].
Qed.
